(** * bimm_service: the make/vehicle-type synchronisation pipeline

    A shallow embedding of [src/utils/helpers.js], [src/models/vehicleMake.js],
    [src/db/mongo.js] and [src/entities/makeDataLoader.js], followed by the
    properties of the pipeline.

    Conventions of the embedding.
    - A JavaScript object with the fixed shape of a make is a record; a
      field that the program deletes, or that may hold [undefined]/[null],
      is a three-valued [Field].
    - A plain object used as a dictionary ([arrayToMap]) is a [JsObject]:
      its own properties and the prototype that an assignment to
      ["__proto__"] gives it; a lookup goes up the prototype chain, and
      reaches the members of [Object.prototype].
    - The MongoDB collection [vehicle_makes] is a list of documents in
      insertion order; every driver call is atomic, and its success is
      supplied by the environment ([DbFaults]).
    - The remote source is a function from the request to its response.
    - Promises started by the type loader are small state machines that a
      scheduler resumes; the scheduler's choices are an explicit input, so
      that a statement quantified over schedules covers every interleaving
      of the event loop.
    - Logging is not modelled. *)

From stdpp Require Import gmap strings list fin_maps.

(** ** Values *)

(** A property that may be absent from an object, hold [undefined] or
    [null], or hold a value. *)
Inductive Field (A : Type) : Type :=
| Missing : Field A
| Nullish : Field A
| Arr : A → Field A.
Arguments Missing {A}.
Arguments Nullish {A}.
Arguments Arr {A} _.

(** The errors that reject a promise of the loader. *)
Inductive Exn : Type := NetworkError | ParseError | TypeError.

Inductive Outcome (A : Type) : Type :=
| Return : A → Outcome A
| Throw : Exn → Outcome A.
Arguments Return {A} _.
Arguments Throw {A} _.

(** What [xml2js] (with [explicitArray: false]) leaves under an element
    name: nothing, the single child itself, or an array of children. *)
Inductive Nested (A : Type) : Type :=
| NoChild : Nested A
| OneChild : A → Nested A
| Children : list A → Nested A.
Arguments NoChild {A}.
Arguments OneChild {A} _.
Arguments Children {A} _.

(** The answer to one HTTP request: [axios.get] throws, the body is not
    XML, or the body parses to a document. *)
Inductive Response (A : Type) : Type :=
| Failed : Response A
| Unparsable : Response A
| Parsed : A → Response A.
Arguments Failed {A}.
Arguments Unparsable {A}.
Arguments Parsed {A} _.

(** ** src/models/vehicleMake.js *)
Module Models.

Record VehicleType : Type := { typeId : string; typeName : string }.

(** [_id] is the identifier MongoDB gives a stored document; objects
    built by the program do not have it. *)
Record VehicleMake : Type := {
  _id : option nat;
  makeId : string;
  makeName : string;
  vehicleTypes : Field (list VehicleType)
}.

(** [constructor(typeId = "", typeName = "")]: an [undefined] argument
    takes the default. *)
Definition new_VehicleType (typeId typeName : option string) : VehicleType :=
  {| typeId := default EmptyString typeId;
     typeName := default EmptyString typeName |}.

(** [constructor(makeId = "", makeName = "", vehicleTypes = [])]. *)
Definition new_VehicleMake (makeId makeName : option string)
    (vehicleTypes : option (list VehicleType)) : VehicleMake :=
  {| _id := None;
     makeId := default EmptyString makeId;
     makeName := default EmptyString makeName;
     vehicleTypes :=
       Arr ((λ t, new_VehicleType (Some (typeId t)) (Some (typeName t)))
            <$> default [] vehicleTypes) |}.

#[global] Instance VehicleType_eq_dec : EqDecision VehicleType.
Proof. solve_decision. Defined.
#[global] Instance Field_eq_dec {A} `{EqDecision A} : EqDecision (Field A).
Proof. solve_decision. Defined.
#[global] Instance VehicleMake_eq_dec : EqDecision VehicleMake.
Proof. solve_decision. Defined.

End Models.
Export Models.

(** ** Plain objects used as dictionaries

    The object starts as [{}] and is changed by [map[k] = item] only,
    every item being an object. For a key other than ["__proto__"] the
    assignment writes the own property [k]. For ["__proto__"] it runs the
    setter of [Object.prototype]: the item becomes the prototype of the
    object and no own property is made. Both are kept in one finite map:
    the entry at ["__proto__"], when there is one, is the prototype, every
    other entry an own property. [o !! k] is then the item last assigned
    under [k], which is also what the lookup [o[k]] yields whenever such
    an item exists. *)
Module JsObjects.

Abbreviation JsObject A := (gmap string A).

(** The own properties, and the prototype if one was assigned (otherwise
    it is [Object.prototype]). *)
Definition js_own {A : Type} (o : JsObject A) : gmap string A :=
  delete "__proto__" o.

Definition js_proto {A : Type} (o : JsObject A) : option A :=
  o !! "__proto__".

(** [Object.values(o)]: the values of the own properties. The
    enumeration order of the keys is not modelled. *)
Definition Object_values {A : Type} (o : JsObject A) : list A :=
  (map_to_list (js_own o)).*2.

(** The property names of [Object.prototype]. Each holds a function,
    but ["__proto__"], whose getter answers with the prototype of the
    object, itself an object. *)
Definition Object_prototype : list string :=
  ["constructor"; "__defineGetter__"; "__defineSetter__"; "hasOwnProperty";
   "__lookupGetter__"; "__lookupSetter__"; "isPrototypeOf";
   "propertyIsEnumerable"; "toString"; "valueOf"; "__proto__";
   "toLocaleString"].

(** [!!item[k]] for an own property [k] of a make, [false] for a name
    that is no own property of it: a string is truthy unless it is empty,
    an array and an [ObjectId] always, [undefined] and [null] never. *)
Definition own_truthy (item : VehicleMake) (k : string) : bool :=
  if decide (k = "makeId") then bool_decide (makeId item ≠ "")
  else if decide (k = "makeName") then bool_decide (makeName item ≠ "")
  else if decide (k = "vehicleTypes") then
    match vehicleTypes item with Arr _ => true | _ => false end
  else if decide (k = "_id") then bool_decide (is_Some (_id item))
  else false.

(** The lookup [o[k]] finds something truthy up the prototype chain,
    whether or not [k] was assigned: a member of [Object.prototype], or an
    own property of the make that was assigned as prototype (the class
    prototype of a make adds [constructor] only). *)
Definition js_inherited (o : JsObject VehicleMake) (k : string) : bool :=
  bool_decide (k ∈ Object_prototype)
  || match js_proto o with
     | Some item => own_truthy item k
     | None => false
     end.

(** [!!o?.[k]]: an item assigned under [k] is an object, hence truthy;
    without one the lookup goes up the chain. *)
Definition js_truthy (o : JsObject VehicleMake) (k : string) : bool :=
  bool_decide (is_Some (o !! k)) || js_inherited o k.

End JsObjects.
Export JsObjects.

(** ** src/utils/helpers.js *)
Module Helpers.

(** [map[item?.[key]] = item] for each item in turn, on [const map = {}]:
    a later item replaces an earlier one with the same key. *)
Definition arrayToMap {A : Type} (array : list A) (key : A → string)
    : JsObject A :=
  foldl (λ map item, <[key item := item]> map) ∅ array.

(** [Object.values(mapObject)]. *)
Definition mapToArray {A : Type} (mapObject : JsObject A) : list A :=
  Object_values mapObject.

(** [[array[i], array[j]] = [array[j], array[i]]]: both reads happen
    before both writes. The indices handed over by [shuffle] are within
    the array; outside it nothing is done here. *)
Definition swap {A : Type} (i j : nat) (array : list A) : list A :=
  match array !! j, array !! i with
  | Some a, Some b => <[j := b]> (<[i := a]> array)
  | _, _ => array
  end.

(** The [while (currentIndex > 0)] loop. The head of [random] stands
    for one call of [Math.random()]; [Math.floor(Math.random() *
    currentIndex)] is an integer below [currentIndex]. *)
Fixpoint shuffle_loop {A : Type} (random : list nat) (currentIndex : nat)
    (array : list A) : list A :=
  match currentIndex with
  | 0 => array
  | S currentIndex' =>
      let randomIndex := hd 0 random `mod` currentIndex in
      shuffle_loop (tl random) currentIndex'
                   (swap currentIndex' randomIndex array)
  end.

Definition shuffle {A : Type} (random : list nat) (array : list A) : list A :=
  shuffle_loop random (length array) array.

End Helpers.
Export Helpers.

(** ** src/db/mongo.js *)
Module MongoDBFacade.

(** The collection [vehicle_makes], its documents in insertion order. *)
Abbreviation Collection := (list VehicleMake).

(** *** The driver

    [collection.deleteOne({makeId: k})] removes the first document whose
    [makeId] is [k]. *)
Fixpoint driver_deleteOne (k : string) (c : Collection) : Collection :=
  match c with
  | [] => []
  | d :: c' => if decide (makeId d = k) then c' else d :: driver_deleteOne k c'
  end.

(** [{$set: document}] applied to a stored document [d]: every property
    the object has is written, [_id] is kept. A property holding
    [undefined] is written as [null]; a property the object lacks is not
    touched. No object this program writes has an [_id]. *)
Definition mongo_set (document d : VehicleMake) : VehicleMake :=
  {| _id := _id d;
     makeId := makeId document;
     makeName := makeName document;
     vehicleTypes :=
       match vehicleTypes document with
       | Missing => vehicleTypes d
       | v => v
       end |}.

(** The identifier of a document inserted into [c]. *)
Definition fresh_id (c : Collection) : nat :=
  S (foldr (λ d n, default 0 (_id d) `max` n) 0 c).

(** The document an upsert inserts when the filter matches nothing. *)
Definition upserted (document : VehicleMake) (c : Collection) : VehicleMake :=
  {| _id := Some (fresh_id c);
     makeId := makeId document;
     makeName := makeName document;
     vehicleTypes := vehicleTypes document |}.

(** [$set] on the first document matching [{makeId: k}], if there is one. *)
Fixpoint update_first (k : string) (document : VehicleMake) (c : Collection)
    : option Collection :=
  match c with
  | [] => None
  | d :: c' =>
      if decide (makeId d = k) then Some (mongo_set document d :: c')
      else (d ::.) <$> update_first k document c'
  end.

(** [collection.updateOne({makeId: k}, {$set: document}, {upsert: true})]. *)
Definition driver_updateOne_upsert (k : string) (document : VehicleMake)
    (c : Collection) : Collection :=
  match update_first k document c with
  | Some c' => c'
  | None => c ++ [upserted document c]
  end.

(** [collection.bulkWrite(bulkOps)] is ordered: the operations are applied
    in turn, and the first one that fails stops the batch with the earlier
    ones applied. [failAt] is the index of the failing operation. *)
Definition driver_bulkWrite (failAt : option nat)
    (bulkOps : list (string * VehicleMake)) (c : Collection) : Collection :=
  foldl (λ c op, driver_updateOne_upsert op.1 op.2 c) c
        (match failAt with Some n => take n bulkOps | None => bulkOps end).

Definition bulk_failed (failAt : option nat) {A} (ops : list A) : bool :=
  match failAt with
  | Some n => bool_decide (n < length ops)
  | None => false
  end.

(** *** The facade

    Every method wraps its driver call in [try]/[catch] and returns a
    default when the call raises. [ok] says whether the call succeeds; it
    fails when the driver raises and also when [connect] failed before
    (then [this.db] is [null] and the call raises inside the [try]). *)

(** [find(collectionName, query)] with no query. *)
Definition find (ok : bool) (c : Collection) : list VehicleMake :=
  if ok then c else [].

(** [deleteOne(collectionName, {makeId: k})]. *)
Definition deleteOne (ok : bool) (k : string) (c : Collection)
    : Collection * bool :=
  if ok then (driver_deleteOne k c, bool_decide (k ∈ makeId <$> c))
  else (c, false).

(** [insertOrUpdate(collectionName, {makeId: k}, document)]: the
    inserted document when the upsert inserted, else [document];
    [null] on failure. *)
Definition insertOrUpdate (ok : bool) (k : string) (document : VehicleMake)
    (c : Collection) : Collection * option VehicleMake :=
  if ok then
    (driver_updateOne_upsert k document c,
     Some (if update_first k document c is Some _ then document
           else upserted document c))
  else (c, None).

(** [insertOrUpdateMany(collectionName, "makeId", documents)]: one
    upsert per document, filtered on the document's own [makeId]. *)
Definition insertOrUpdateMany (failAt : option nat)
    (documents : list VehicleMake) (c : Collection)
    : Collection * list VehicleMake :=
  let bulkOps := (λ document, (makeId document, document)) <$> documents in
  (driver_bulkWrite failAt bulkOps c,
   if bulk_failed failAt bulkOps then [] else documents).

End MongoDBFacade.
Export MongoDBFacade.

(** ** The environment of a run *)

(** The documents of the remote source, as [xml2js] parses them. *)
Record RawMake : Type := { Make_ID : option string; Make_Name : option string }.

Record RawVehicleType : Type := {
  VehicleTypeId : option string;
  VehicleTypeName : option string
}.

(** [Response.Results.AllVehicleMakes] of the makes document. *)
Record MakesDoc : Type := { AllVehicleMakes : Nested RawMake }.

(** [Response.Count] and [Response.Results.VehicleTypesForMakeIds] of a
    type-list document. [Count] is compared with [==]: [Some n] is a
    [Count] that [==] reads as the number [n] (a number, or a string that
    converts to it), [None] one that is absent or reads as no number. *)
Record TypesDoc : Type := {
  Count : option Z;
  VehicleTypesForMakeIds : Nested RawVehicleType
}.

(** The remote source during one run. *)
Record Remote : Type := {
  getallmakes : Response MakesDoc;
  GetVehicleTypesForMakeId : string → Response TypesDoc
}.

(** Which store calls succeed during one run: the [find] and the
    [deleteOne]s and [bulkWrite] of [_saveMakes], and the [updateOne] of
    [_saveVehicleTypes] for each make. *)
Record DbFaults : Type := {
  find_ok : bool;
  delete_ok : string → bool;
  bulk_fail_at : option nat;
  upsert_ok : string → bool
}.

Definition no_faults : DbFaults :=
  {| find_ok := true; delete_ok := λ _, true;
     bulk_fail_at := None; upsert_ok := λ _, true |}.

(** ** src/entities/makeDataLoader.js *)
Module MakeDataLoader.

Definition CONCURRENT_REQUESTS : nat := 5.
Definition SLEEP_SECONDS : Z := 1.
Definition TEST_REQUESTS : Z := -1.

(** [_xml2Json(response?.data)] after [axios.get]. *)
Definition fetch {A : Type} (r : Response A) : Outcome A :=
  match r with
  | Failed => Throw NetworkError
  | Unparsable => Throw ParseError
  | Parsed doc => Return doc
  end.

Definition _readMakesFromAPI (remote : Remote) : Outcome MakesDoc :=
  fetch (getallmakes remote).

(** [jsObject?.Results?.AllVehicleMakes?.map(...)]: [undefined] when the
    element is absent, a [TypeError] when it is a single object (which has
    no [map]). *)
Definition _extractMakeObjects (jsObject : MakesDoc)
    : Outcome (option (list VehicleMake)) :=
  match AllVehicleMakes jsObject with
  | NoChild => Return None
  | OneChild _ => Throw TypeError
  | Children makes =>
      Return (Some ((λ make, new_VehicleMake (Make_ID make) (Make_Name make) None)
                    <$> makes))
  end.

Definition _loadAllMakes (remote : Remote) : Outcome (option (list VehicleMake)) :=
  match _readMakesFromAPI remote with
  | Throw e => Throw e
  | Return jsonResponse => _extractMakeObjects jsonResponse
  end.

Definition extractOne (vehicleType : RawVehicleType) : VehicleType :=
  new_VehicleType (VehicleTypeId vehicleType) (VehicleTypeName vehicleType).

(** [_extractVehicleTypeObjects]. With [Count == 1] the properties are read
    off whatever [VehicleTypesForMakeIds] is; an array or [undefined] has
    neither, and the constructor defaults apply. *)
Definition _extractVehicleTypeObjects (jsObject : TypesDoc)
    : Outcome (option (list VehicleType)) :=
  if decide (Count jsObject = Some 0%Z) then Return (Some [])
  else if decide (Count jsObject = Some 1%Z) then
    match VehicleTypesForMakeIds jsObject with
    | OneChild onlyVehicleType => Return (Some [extractOne onlyVehicleType])
    | _ => Return (Some [new_VehicleType None None])
    end
  else
    match VehicleTypesForMakeIds jsObject with
    | NoChild => Return None
    | OneChild _ => Throw TypeError
    | Children l => Return (Some (extractOne <$> l))
    end.

Definition _readVehicleTypesFromAPI (remote : Remote) (makeId : string)
    : Outcome (option (list VehicleType)) :=
  match fetch (GetVehicleTypesForMakeId remote makeId) with
  | Throw e => Throw e
  | Return jsonResponse => _extractVehicleTypeObjects jsonResponse
  end.

(** *** _saveMakes *)

(** The [Promise.all] over [dbMakes]: one [deleteOne] for each stored
    document for which [!remoteMakesMap?.[make?.makeId]] holds. The test
    is made for every document before any call is applied; the calls are
    applied in the order of [dbMakes]. *)
Definition deleteOld (db : DbFaults) (remoteMakesMap : JsObject VehicleMake)
    (dbMakes : list VehicleMake) (c : Collection) : Collection :=
  foldl (λ c make,
           if js_truthy remoteMakesMap (makeId make) then c
           else (deleteOne (delete_ok db (makeId make)) (makeId make) c).1)
        c dbMakes.

(** [dbMakesMap?.[make?.makeId]?.vehicleTypes?.length > 0], on what the
    lookup yields when it is an item of the map. Anything else it can
    find up the chain (a function, a string, an array, an [ObjectId]) has
    no [vehicleTypes], and the test is false as for [undefined]. *)
Definition has_types (d : option VehicleMake) : bool :=
  match d with
  | Some d => match vehicleTypes d with Arr (_ :: _) => true | _ => false end
  | None => false
  end.

(** [make?.vehicleTypes?.length === 0]. *)
Definition no_types (make : VehicleMake) : bool :=
  match vehicleTypes make with
  | Arr [] => true
  | _ => false
  end.

(** [delete make?.vehicleTypes]. *)
Definition delete_vehicleTypes (make : VehicleMake) : VehicleMake :=
  {| _id := _id make; makeId := makeId make; makeName := makeName make;
     vehicleTypes := Missing |}.

(** The callback of [remoteMakes.map]. It changes the object it is given
    and returns that same object. *)
Definition makeToSave (dbMakesMap : JsObject VehicleMake) (make : VehicleMake)
    : VehicleMake :=
  if has_types (dbMakesMap !! makeId make) && no_types make
  then delete_vehicleTypes make else make.

(** [_saveMakes(remoteMakes)]. [remoteMakes] is [None] when the caller
    passes [undefined]; [arrayToMap] then raises a [TypeError], after the
    [find] and before any write. On return the first component of the
    result is what [insertOrUpdateMany] returned; the second is the
    caller's [remoteMakes] array, whose objects [makeToSave] has changed in
    place ([makesToSave] holds the same objects). *)
Definition _saveMakes (db : DbFaults) (remoteMakes : option (list VehicleMake))
    (c : Collection)
    : Collection * Outcome (list VehicleMake * list VehicleMake) :=
  let dbMakes := find (find_ok db) c in
  match remoteMakes with
  | None => (c, Throw TypeError)
  | Some remoteMakes =>
      let remoteMakesMap := arrayToMap remoteMakes makeId in
      let dbMakesMap := arrayToMap dbMakes makeId in
      let c1 := deleteOld db remoteMakesMap dbMakes c in
      let makesToSave := makeToSave dbMakesMap <$> remoteMakes in
      let '(c2, result) := insertOrUpdateMany (bulk_fail_at db) makesToSave c1 in
      (c2, Return (result, makesToSave))
  end.

(** [_saveVehicleTypes(make)]. *)
Definition _saveVehicleTypes (db : DbFaults) (make : VehicleMake) (c : Collection)
    : Collection * option VehicleMake :=
  insertOrUpdate (upsert_ok db (makeId make)) (makeId make) make c.

(** [getAllMakes()]: [delete d?._id && d] is [d] itself, without its
    [_id]. *)
Definition delete_id (d : VehicleMake) : VehicleMake :=
  {| _id := None; makeId := makeId d; makeName := makeName d;
     vehicleTypes := vehicleTypes d |}.

Definition getAllMakes (ok : bool) (c : Collection) : list VehicleMake :=
  delete_id <$> find ok c.

(** *** _loadAndSaveVehicleTypes *)

(** What the promises of one run share: the [makesMap] object and the
    collection. *)
Record Shared : Type := {
  makesMap : JsObject VehicleMake;
  store : Collection
}.

(** A call of [readAndSave()]. It runs up to [axios.get] when it is
    made, and is resumed twice: when the response arrives, up to the
    [updateOne] of [_saveVehicleTypes]; and when the store has applied
    that call. Whatever is thrown in between is caught by its own
    [try]/[catch], which settles the promise. *)
Inductive ReadAndSave : Type :=
| AwaitingTypes (make : VehicleMake)
| AwaitingSave (updatedMake : VehicleMake)
| Settled.

(** The object that [{...undefined}] spreads to. [makeId] cannot be absent
    from the record; the case does not arise, every key [readAndSave] looks
    up having been assigned in [makesMap] (lemma [resume_cases]), so that
    the lookup yields the item, own property or prototype. *)
Definition empty_object : VehicleMake :=
  {| _id := None; makeId := EmptyString; makeName := EmptyString;
     vehicleTypes := Missing |}.

(** The property that holds what [_readVehicleTypesFromAPI] returned: an
    array, or [undefined]. *)
Definition to_field {A : Type} (v : option A) : Field A :=
  match v with
  | Some l => Arr l
  | None => Nullish
  end.

(** [{...makesMap?.[make.makeId], vehicleTypes}]. *)
Definition spread_vehicleTypes (o : option VehicleMake)
    (vehicleTypes : option (list VehicleType)) : VehicleMake :=
  let o := default empty_object o in
  {| _id := _id o; makeId := makeId o; makeName := makeName o;
     vehicleTypes := to_field vehicleTypes |}.

Definition resume (remote : Remote) (db : DbFaults) (p : ReadAndSave)
    (s : Shared) : ReadAndSave * Shared :=
  match p with
  | AwaitingTypes make =>
      match _readVehicleTypesFromAPI remote (makeId make) with
      | Throw _ => (Settled, s)
      | Return vehicleTypes =>
          let updatedMake :=
            spread_vehicleTypes (makesMap s !! makeId make) vehicleTypes in
          (AwaitingSave updatedMake,
           {| makesMap := <[makeId make := updatedMake]> (makesMap s);
              store := store s |})
      end
  | AwaitingSave updatedMake =>
      (Settled,
       {| makesMap := makesMap s;
          store := (_saveVehicleTypes db updatedMake (store s)).1 |})
  | Settled => (Settled, s)
  end.

(** The event loop while the caller is suspended: each entry of
    [schedule] resumes the promise at that index (an index outside the
    array, or of a settled promise, does nothing). *)
Fixpoint run (remote : Remote) (db : DbFaults) (schedule : list nat)
    (promises : list ReadAndSave) (s : Shared) : list ReadAndSave * Shared :=
  match schedule with
  | [] => (promises, s)
  | n :: schedule' =>
      match promises !! n with
      | Some p =>
          let '(p', s') := resume remote db p s in
          run remote db schedule' (<[n := p']> promises) s'
      | None => run remote db schedule' promises s
      end
  end.

(** Every promise still pending is resumed until it settles. *)
Definition drain (remote : Remote) (db : DbFaults)
    (promises : list ReadAndSave) (s : Shared) : Shared :=
  foldl (λ s p, let '(p', s') := resume remote db p s in
                (resume remote db p' s').2)
        s promises.

(** [await Promise.all(promises)]: the promises settle in an order the
    schedule chooses; the call returns once all have. *)
Definition Promise_all (remote : Remote) (db : DbFaults) (schedule : list nat)
    (promises : list ReadAndSave) (s : Shared) : Shared :=
  let '(promises', s') := run remote db schedule promises s in
  drain remote db promises' s'.

(** What an instrumented run of the loop records. *)
Inductive Event : Type :=
| Started (makeId : string)
| AwaitedAll
| Slept (ms : Z).

(** The variables of the [for ... of] loop, the schedules not yet used
    and the events so far. *)
Record Loop : Type := {
  shared : Shared;
  promises : list ReadAndSave;
  i : Z;
  schedules_left : list (list nat);
  events : list Event
}.

(** One iteration up to the [break] test: [readAndSave()] is called and
    pushed; when more than [CONCURRENT_REQUESTS] promises are held they
    are awaited, the array is reset and the loop sleeps for
    [setTimeout(r, SLEEP_SECONDS)]. *)
Definition iteration (remote : Remote) (db : DbFaults) (make : VehicleMake)
    (st : Loop) : Loop :=
  let promises' := promises st ++ [AwaitingTypes make] in
  let events' := events st ++ [Started (makeId make)] in
  if bool_decide (CONCURRENT_REQUESTS < length promises') then
    {| shared := Promise_all remote db (hd [] (schedules_left st)) promises' (shared st);
       promises := [];
       i := i st;
       schedules_left := tl (schedules_left st);
       events := events' ++ [AwaitedAll; Slept SLEEP_SECONDS] |}
  else
    {| shared := shared st; promises := promises'; i := i st;
       schedules_left := schedules_left st; events := events' |}.

Definition incr (st : Loop) : Loop :=
  {| shared := shared st; promises := promises st; i := (i st + 1)%Z;
     schedules_left := schedules_left st; events := events st |}.

(** [for (const make of queue) { ...; if (i++ === TEST_REQUESTS) break }]. *)
Fixpoint for_of (remote : Remote) (db : DbFaults) (queue : list VehicleMake)
    (st : Loop) : Loop :=
  match queue with
  | [] => st
  | make :: queue' =>
      let st' := iteration remote db make st in
      if decide (i st' = TEST_REQUESTS) then incr st'
      else for_of remote db queue' (incr st')
  end.

(** A finished call of [_loadAndSaveVehicleTypes]: the array it returns,
    the shared state and the promises still pending at that moment, the
    events recorded, and the shared state once those promises have
    settled too. *)
Record Cycle : Type := {
  returned : list VehicleMake;
  on_return : Shared;
  in_flight : list ReadAndSave;
  recorded : list Event;
  settled : Shared
}.

(** [_loadAndSaveVehicleTypes(allMakes = [])]. [random] feeds [shuffle];
    [schedules] holds one schedule for each [Promise.all] and then one for
    the promises that are left pending when the function returns. *)
Definition _loadAndSaveVehicleTypes (remote : Remote) (db : DbFaults)
    (random : list nat) (schedules : list (list nat))
    (allMakes : list VehicleMake) (c : Collection) : Cycle :=
  let st := for_of remote db (shuffle random allMakes)
              {| shared := {| makesMap := arrayToMap allMakes makeId; store := c |};
                 promises := []; i := 0%Z; schedules_left := schedules; events := [] |} in
  {| returned := mapToArray (makesMap (shared st));
     on_return := shared st;
     in_flight := promises st;
     recorded := events st;
     settled := Promise_all remote db (hd [] (schedules_left st))
                            (promises st) (shared st) |}.

(** [startLoading()]: the collection at the moment the call settles, and
    how it settles. *)
Definition startLoading (remote : Remote) (db : DbFaults) (random : list nat)
    (schedules : list (list nat)) (c : Collection)
    : Collection * Outcome Cycle :=
  match _loadAllMakes remote with
  | Throw e => (c, Throw e)
  | Return allMakes =>
      match _saveMakes db allMakes c with
      | (c', Throw e) => (c', Throw e)
      | (c', Return (_, allMakes')) =>
          let cycle := _loadAndSaveVehicleTypes remote db random schedules allMakes' c' in
          (store (on_return cycle), Return cycle)
      end
  end.

(** The collection once a call of [startLoading] has settled and no
    promise it started is pending. *)
Definition snapshot_after (r : Collection * Outcome Cycle) : Collection :=
  match r with
  | (_, Return cycle) => store (settled cycle)
  | (c, Throw _) => c
  end.

(** The largest number of promises pending at once, read off the
    recorded events: a promise is pending from [Started] until the next
    [AwaitedAll]. *)
Fixpoint peak_from (pending : nat) (events : list Event) : nat :=
  match events with
  | [] => pending
  | Started _ :: events' => S pending `max` peak_from (S pending) events'
  | AwaitedAll :: events' => pending `max` peak_from 0 events'
  | Slept _ :: events' => peak_from pending events'
  end.

Definition peak_in_flight (events : list Event) : nat := peak_from 0 events.

(** The number of promises pending after the recorded events. *)
Fixpoint pending_from (pending : nat) (events : list Event) : nat :=
  match events with
  | [] => pending
  | Started _ :: events' => pending_from (S pending) events'
  | AwaitedAll :: events' => pending_from 0 events'
  | Slept _ :: events' => pending_from pending events'
  end.

(** The makes for which a request was started, in order. *)
Fixpoint started (events : list Event) : list string :=
  match events with
  | [] => []
  | Started makeId :: events' => makeId :: started events'
  | _ :: events' => started events'
  end.

End MakeDataLoader.
Export MakeDataLoader.

(** ** The read endpoints (app.js, src/schemas/vehicleMake.js) *)

(** The handler of [GET /api/v1/makes]: [res.json(makes)] with
    [makes = await MakeDataLoader.getAllMakes()]. *)
Definition api_v1_makes (ok : bool) (c : Collection) : list VehicleMake :=
  getAllMakes ok c.

(** The [resolve] of the [makes] field of the GraphQL query. *)
Definition makes_resolve (ok : bool) (c : Collection) : list VehicleMake :=
  getAllMakes ok c.

(** ** The self-check (src/entities/makeDataLoader.js, app.js) *)

(** What [testTheMakesDataTransform] logs: [logger.error] with the two
    counts, or [logger.info]. *)
Inductive TestLog : Type :=
| TestFailed (dbCount : nat) (remoteCount : option Z)
| TestPassed.

(** [testTheMakesDataTransform()]. It sends the makes request again and
    reads nothing of the answer but [Response.Count]; [remoteCount] is that
    answer seen through its [Count] ([Some n] and [None] as for the [Count]
    of a type-list document). The counts are compared with [!=]. A request
    or parse that raises rejects the call. *)
Definition testTheMakesDataTransform (remoteCount : Response (option Z))
    (ok : bool) (c : Collection) : Outcome TestLog :=
  match fetch remoteCount with
  | Throw e => Throw e
  | Return count =>
      let makesInDB := getAllMakes ok c in
      if decide (count = Some (Z.of_nat (length makesInDB))) then Return TestPassed
      else Return (TestFailed (length makesInDB) count)
  end.

(** * Vocabulary of the statements *)

(** The documents [insertOrUpdateMany] gets to write: those before the
    failing one, in order. *)
Definition written (failAt : option nat) (documents : list VehicleMake)
    : list VehicleMake :=
  match failAt with
  | Some n => take n documents
  | None => documents
  end.

(** The upsert of a document on its own [makeId]. *)
Definition upsert_own (c : Collection) (document : VehicleMake) : Collection :=
  driver_updateOne_upsert (makeId document) document c.

(** ** The example scenario of the specification

    The remote source lists the makes A, B and C; the collection holds A
    with one type, B with none and D with one type. The types of B and C
    can be fetched, the request for A fails. *)
Module Example.

Definition T (n : string) : VehicleType := {| typeId := n; typeName := n |}.

Definition raw (n : string) : RawVehicleType :=
  {| VehicleTypeId := Some n; VehicleTypeName := Some n |}.

Definition stored (i : nat) (k : string) (types : list VehicleType) : VehicleMake :=
  {| _id := Some i; makeId := k; makeName := k; vehicleTypes := Arr types |}.

Definition shell (k : string) : VehicleMake :=
  new_VehicleMake (Some k) (Some k) None.

Definition collection : Collection :=
  [stored 1 "A" [T "T1"]; stored 2 "B" []; stored 3 "D" [T "T2"]].

Definition remoteMakes : list VehicleMake := [shell "A"; shell "B"; shell "C"].

Definition remote : Remote :=
  {| getallmakes :=
       Parsed {| AllVehicleMakes :=
                   Children [ {| Make_ID := Some "A"; Make_Name := Some "A" |};
                              {| Make_ID := Some "B"; Make_Name := Some "B" |};
                              {| Make_ID := Some "C"; Make_Name := Some "C" |} ] |};
     GetVehicleTypesForMakeId := λ k,
       if decide (k = "A") then Failed
       else if decide (k = "B") then
         Parsed {| Count := Some 1%Z; VehicleTypesForMakeIds := OneChild (raw "T3") |}
       else
         Parsed {| Count := Some 2%Z;
                   VehicleTypesForMakeIds := Children [raw "T4"; raw "T5"] |} |}.

Definition six : list VehicleMake :=
  [shell "1"; shell "2"; shell "3"; shell "4"; shell "5"; shell "6"].

(** The three type-list documents of the edge-case policy. *)
Definition count0 : TypesDoc :=
  {| Count := Some 0%Z; VehicleTypesForMakeIds := NoChild |}.

Definition count1 : TypesDoc :=
  {| Count := Some 1%Z; VehicleTypesForMakeIds := OneChild (raw "T3") |}.

Definition count3 : TypesDoc :=
  {| Count := Some 3%Z;
     VehicleTypesForMakeIds := Children [raw "T4"; raw "T5"; raw "T6"] |}.

(** The store in which the [bulkWrite] of [_saveMakes] raises at its
    second operation, every other call succeeding. *)
Definition bulk_fails : DbFaults :=
  {| find_ok := true; delete_ok := λ _, true;
     bulk_fail_at := Some 1; upsert_ok := λ _, true |}.


Definition deletes_fail : DbFaults :=
  {| find_ok := true; delete_ok := λ _, false;
     bulk_fail_at := None; upsert_ok := λ _, true |}.


(** A remote source that cannot be reached, and one whose makes document
    lists nothing. *)
Definition offline : Remote :=
  {| getallmakes := Failed; GetVehicleTypesForMakeId := λ _, Failed |}.

Definition listless : Remote :=
  {| getallmakes := Parsed {| AllVehicleMakes := NoChild |};
     GetVehicleTypesForMakeId := λ _, Failed |}.

End Example.

(** ** Collections the service can hold

    The collection starts empty and is written by nothing but the
    synchronisation: [_saveMakes], [_saveVehicleTypes], and a run of
    [startLoading], observed when the call settles and when the promises
    it left pending have settled. Remote source, store faults, random
    draws and schedules are arbitrary. *)
Inductive reachable : Collection → Prop :=
| reachable_empty : reachable []
| reachable_saveMakes db remoteMakes c :
    reachable c → reachable (_saveMakes db remoteMakes c).1
| reachable_saveVehicleTypes db make c :
    reachable c → reachable (_saveVehicleTypes db make c).1
| reachable_startLoading remote db random schedules c :
    reachable c → reachable (startLoading remote db random schedules c).1
| reachable_settled remote db random schedules c :
    reachable c →
    reachable (snapshot_after (startLoading remote db random schedules c)).

(** ** Failures of the first two steps of a run *)

(** Step 1 fails: fetching or parsing the makes document raises. *)
Definition makes_fetch_fails (remote : Remote) : Prop :=
  ∃ e, _readMakesFromAPI remote = Throw e.

(** Step 2 is reached with the array [allMakes] and one of its store
    calls raises: the [find], the [deleteOne] of a stale document, or the
    [bulkWrite]. *)
Definition shell_persistence_fails (remote : Remote) (db : DbFaults)
    (c : Collection) : Prop :=
  ∃ allMakes, _loadAllMakes remote = Return (Some allMakes) ∧
    (find_ok db = false
     ∨ (∃ d, d ∈ c ∧ (makeId d ∉ makeId <$> allMakes)
             ∧ delete_ok db (makeId d) = false)
     ∨ bulk_failed (bulk_fail_at db) allMakes = true).

(** The call of [startLoading] is rejected: it ends before
    [_loadAndSaveVehicleTypes] is called. *)
Definition aborted (r : Collection * Outcome Cycle) : Prop :=
  ∃ e, r.2 = Throw e.

(** ** Invariants of the type loader *)

(** A pending promise works for the key [k]. *)
Definition pending_for (k : string) (p : ReadAndSave) : Prop :=
  match p with
  | AwaitingTypes make => makeId make = k
  | AwaitingSave updatedMake => makeId updatedMake = k
  | Settled => False
  end.

(** A promise is consistent with the initial [makesMap]: its make is a key
    of the map, and the object it is about to save is the map's entry for
    that key with the fetched types. *)
Definition promise_ok (remote : Remote) (M0 : JsObject VehicleMake)
    (p : ReadAndSave) : Prop :=
  match p with
  | AwaitingTypes make => is_Some (M0 !! makeId make)
  | AwaitingSave updatedMake =>
      ∃ x vt, M0 !! makeId updatedMake = Some x
              ∧ _readVehicleTypesFromAPI remote (makeId updatedMake) = Return vt
              ∧ updatedMake = spread_vehicleTypes (Some x) vt
  | Settled => True
  end.

(** [makesMap] differs from the initial map only in the [vehicleTypes] of
    its entries; every make still to be started and every promise is
    consistent with the initial map. *)
Definition Base (remote : Remote) (M0 : JsObject VehicleMake)
    (queue : list VehicleMake) (ps : list ReadAndSave) (s : Shared) : Prop :=
  (∀ k, delete_vehicleTypes <$> makesMap s !! k = delete_vehicleTypes <$> M0 !! k)
  ∧ (∀ make, make ∈ queue → is_Some (M0 !! makeId make))
  ∧ Forall (promise_ok remote M0) ps.

(** ** What a run leaves in the collection *)

(** No store call fails. *)
Definition faultless (db : DbFaults) : Prop :=
  find_ok db = true ∧ (∀ k, delete_ok db k = true)
  ∧ bulk_fail_at db = None ∧ (∀ k, upsert_ok db k = true).

(** What the type loader makes of a stored document: when the document's
    key is in [makesMap] and its types can be fetched, the map's entry with
    the fetched types is [$set] on it. *)
Definition fetched (remote : Remote) (allMakes : list VehicleMake)
    (d : VehicleMake) : VehicleMake :=
  match arrayToMap allMakes makeId !! makeId d,
        _readVehicleTypesFromAPI remote (makeId d) with
  | Some x, Return vt => mongo_set (spread_vehicleTypes (Some x) vt) d
  | _, _ => d
  end.

(** While the loader runs, a stored document [d'] is either what the
    loader makes of the initial document [d], or still [d] with a promise
    pending or a make still to be started for its key. *)
Definition tracks (remote : Remote) (allMakes queue : list VehicleMake)
    (ps : list ReadAndSave) (d d' : VehicleMake) : Prop :=
  d' = fetched remote allMakes d
  ∨ (d' = d ∧ ((∃ n p, ps !! n = Some p ∧ pending_for (makeId d) p)
               ∨ makeId d ∈ makeId <$> queue)).

(** What the batch of [_saveMakes] makes of a stored document whose key is
    in the remote list: the last remote record with that key is [$set] on
    it, as [makeToSave] prepares it. *)
Definition reconciled (dbMakesMap : JsObject VehicleMake)
    (remoteMakes : list VehicleMake) (d : VehicleMake) : VehicleMake :=
  match arrayToMap remoteMakes makeId !! makeId d with
  | Some make => mongo_set (makeToSave dbMakesMap make) d
  | None => d
  end.

(** A document as the batch of [_saveMakes] leaves it: named after the
    last remote record with its key, its [vehicleTypes] an array. *)
Definition shelled (remoteMakes : list VehicleMake) (d : VehicleMake) : Prop :=
  ∃ make l, arrayToMap remoteMakes makeId !! makeId d = Some make
            ∧ makeName d = makeName make ∧ vehicleTypes d = Arr l.

(** A document as a whole run leaves it: named after the last remote
    record with its key; its [vehicleTypes] what the remote source
    answers for the key, or an array when the request fails. *)
Definition stable (remote : Remote) (remoteMakes : list VehicleMake)
    (d : VehicleMake) : Prop :=
  ∃ make, arrayToMap remoteMakes makeId !! makeId d = Some make
          ∧ makeName d = makeName make
          ∧ match _readVehicleTypesFromAPI remote (makeId d) with
            | Return vt => vehicleTypes d = to_field vt
            | Throw _ => ∃ l, vehicleTypes d = Arr l
            end.

(** The collection after [_saveMakes] on [c] when no store call fails:
    the documents for which a [deleteOne] is issued are gone and every
    remote record is upserted. *)
Definition batch (remoteMakes : list VehicleMake) (c : Collection) : Collection :=
  foldl upsert_own
        (filter (λ d, js_truthy (arrayToMap remoteMakes makeId) (makeId d) = true) c)
        (makeToSave (arrayToMap c makeId) <$> remoteMakes).

(** The stale documents of [c] for which [_saveMakes] issues no
    [deleteOne]: their key is not in the remote list, and the lookup in
    the map of the remote makes finds something inherited. *)
Definition passed_over (remoteMakes : list VehicleMake) (c : Collection)
    : list VehicleMake :=
  filter (λ d, (makeId d ∉ makeId <$> remoteMakes)
               ∧ js_inherited (arrayToMap remoteMakes makeId) (makeId d) = true) c.

(** ** The instrumented loop *)

(** The recorded events count the promises held: between two iterations
    at most [CONCURRENT_REQUESTS] are pending, and the peak is one more
    as soon as a group has been awaited. *)
Definition counted (st : Loop) : Prop :=
  pending_from 0 (events st) = length (promises st)
  ∧ length (promises st) ≤ CONCURRENT_REQUESTS
  ∧ (peak_in_flight (events st) = S CONCURRENT_REQUESTS
     ∨ (peak_in_flight (events st) = length (promises st)
        ∧ length (started (events st)) = length (promises st))).


(** The groups of promises that were awaited. *)
Fixpoint awaited (events : list Event) : nat :=
  match events with
  | [] => 0
  | AwaitedAll :: events' => S (awaited events')
  | _ :: events' => awaited events'
  end.

(** The collection holds the documents of [c], in their order, and after
    them documents with keys of [allMakes]. *)
Definition grown (allMakes : list VehicleMake) (c : Collection) (s : Shared) : Prop :=
  ∃ new, makeId <$> store s = (makeId <$> c) ++ new
         ∧ ∀ k, k ∈ new → k ∈ makeId <$> allMakes.

(** * Properties *)

(** ** Helpers *)

Section helpers.
Context {A : Type}.
Implicit Types (array : list A) (key : A → string).

Lemma swap_length i j array : length (swap i j array) = length array.
Proof.
  unfold swap. destruct (array !! j), (array !! i); try done.
  by rewrite !length_insert.
Qed.

Lemma swap_Permutation i j array : swap i j array ≡ₚ array.
Proof.
  unfold swap.
  destruct (array !! j) as [a|] eqn:Hj, (array !! i) as [b|] eqn:Hi; try done.
  by apply Permutation_insert_swap.
Qed.

Lemma shuffle_loop_Permutation random currentIndex array :
  shuffle_loop random currentIndex array ≡ₚ array.
Proof.
  revert random array.
  induction currentIndex as [|n IH]; intros random array; simpl; [done|].
  by rewrite IH, swap_Permutation.
Qed.

(** [arrayToMap] read from the right: the last item with a key is the one
    the map holds. *)
Lemma arrayToMap_snoc array key item :
  arrayToMap (array ++ [item]) key = <[key item := item]> (arrayToMap array key).
Proof. unfold arrayToMap. by rewrite foldl_app. Qed.

Lemma arrayToMap_lookup_Some array key k item :
  arrayToMap array key !! k = Some item → item ∈ array ∧ key item = k.
Proof.
  induction array as [|x array IH] using rev_ind.
  - unfold arrayToMap. simpl. by rewrite lookup_empty.
  - rewrite arrayToMap_snoc. destruct (decide (key x = k)) as [<-|Hne].
    + rewrite lookup_insert_eq. intros [= <-]. split; [|done].
      apply elem_of_app. right. by apply list_elem_of_singleton.
    + rewrite lookup_insert_ne by done. intros [Hin Hk]%IH. split; [|done].
      apply elem_of_app. by left.
Qed.

Lemma arrayToMap_lookup_None array key k :
  arrayToMap array key !! k = None ↔ k ∉ key <$> array.
Proof.
  induction array as [|x array IH] using rev_ind.
  - unfold arrayToMap. simpl. rewrite lookup_empty. split; [|done].
    intros _ Hin. by apply elem_of_nil in Hin.
  - rewrite arrayToMap_snoc, fmap_app, not_elem_of_app. simpl.
    destruct (decide (key x = k)) as [<-|Hne].
    + rewrite lookup_insert_eq. split; [done|]. intros [_ Hn].
      exfalso. apply Hn. by apply list_elem_of_singleton.
    + rewrite lookup_insert_ne by done. rewrite IH. split.
      * intros Hn. split; [done|]. intros ->%list_elem_of_singleton. done.
      * by intros [Hn _].
Qed.

Lemma arrayToMap_is_Some array key k :
  is_Some (arrayToMap array key !! k) ↔ k ∈ key <$> array.
Proof.
  rewrite <-not_eq_None_Some, arrayToMap_lookup_None.
  split; [apply dec_stable | auto].
Qed.

End helpers.

(** ** The collection *)

Section collection.
Implicit Types (c : Collection) (d document : VehicleMake) (k : string).

Lemma driver_deleteOne_sublist k c : driver_deleteOne k c `sublist_of` c.
Proof.
  induction c as [|d c IH]; simpl; [done|].
  case_decide; [by apply sublist_cons | by apply sublist_skip].
Qed.

Lemma driver_deleteOne_other k c d :
  d ∈ c → makeId d ≠ k → d ∈ driver_deleteOne k c.
Proof.
  induction c as [|d' c IH]; simpl; [done|].
  intros [->|Hin]%elem_of_cons Hne; case_decide; try done.
  - apply elem_of_cons. by left.
  - apply elem_of_cons. right. by apply IH.
Qed.

(** Deleting a key that occurs nowhere before the first [d]. *)
Lemma driver_deleteOne_middle pre d c :
  makeId d ∉ makeId <$> pre →
  driver_deleteOne (makeId d) (pre ++ d :: c) = pre ++ c.
Proof.
  induction pre as [|x pre IH]; simpl; intros Hn.
  - by rewrite decide_True.
  - apply not_elem_of_cons in Hn as [Hne Hn].
    rewrite decide_False by done. by rewrite IH.
Qed.

Lemma update_first_Some k document c :
  k ∈ makeId <$> c → is_Some (update_first k document c).
Proof.
  induction c as [|d c IH]; simpl.
  - by intros ?%elem_of_nil.
  - intros Hin. case_decide as Hd; [by eexists|].
    apply elem_of_cons in Hin as [Hk|Hin]; [congruence|].
    destruct (IH Hin) as [c' ->]. by eexists.
Qed.

Lemma update_first_None k document c :
  update_first k document c = None ↔ k ∉ makeId <$> c.
Proof.
  induction c as [|d c IH]; simpl.
  - split; [|done]. intros _. apply not_elem_of_nil.
  - rewrite not_elem_of_cons. case_decide as Hd.
    + split; [done|]. by intros [Hne _].
    + rewrite fmap_None, IH. split; [by intros ?; split|by intros [_ ?]].
Qed.

(** The shape of a successful update: the first match, and only it, is
    rewritten. *)
Lemma update_first_split k document c c' :
  update_first k document c = Some c' →
  ∃ pre d post, c = pre ++ d :: post ∧ makeId d = k ∧
    (k ∉ makeId <$> pre) ∧ c' = pre ++ mongo_set document d :: post.
Proof.
  revert c'. induction c as [|x c IH]; simpl; intros c'; [done|].
  case_decide as Hx.
  - intros [= <-]. exists [], x, c. repeat split; try done. apply not_elem_of_nil.
  - destruct (update_first k document c) as [c''|] eqn:Hu; simpl; [|done].
    intros [= <-]. destruct (IH _ eq_refl) as (pre & d & post & -> & Hd & Hpre & ->).
    exists (x :: pre), d, post. repeat split; try done.
    simpl. apply not_elem_of_cons. split; [congruence|done].
Qed.

Lemma update_first_ids document c c' :
  update_first (makeId document) document c = Some c' →
  makeId <$> c' = makeId <$> c.
Proof.
  intros (pre & d & post & -> & Hd & _ & ->)%update_first_split.
  rewrite !fmap_app, !fmap_cons. simpl. by rewrite Hd.
Qed.

Lemma upsert_ids document c :
  makeId <$> driver_updateOne_upsert (makeId document) document c =
  if decide (makeId document ∈ makeId <$> c) then makeId <$> c
  else (makeId <$> c) ++ [makeId document].
Proof.
  unfold driver_updateOne_upsert.
  destruct (update_first _ _ c) as [c'|] eqn:Hu.
  - rewrite decide_True.
    + by apply (update_first_ids document).
    + apply dec_stable. intros Hn.
      apply (update_first_None _ document) in Hn. by rewrite Hn in Hu.
  - apply update_first_None in Hu. rewrite decide_False by done.
    by rewrite fmap_app.
Qed.

Lemma upsert_NoDup document c :
  NoDup (makeId <$> c) →
  NoDup (makeId <$> driver_updateOne_upsert (makeId document) document c).
Proof.
  intros Hc. rewrite upsert_ids. case_decide as Hin; [done|].
  apply NoDup_app. split_and!; [done| |apply NoDup_singleton].
  intros x Hx ->%list_elem_of_singleton. done.
Qed.

Lemma upsert_ids_incl document c k :
  k ∈ makeId <$> c →
  k ∈ makeId <$> driver_updateOne_upsert (makeId document) document c.
Proof.
  intros Hk. rewrite upsert_ids. case_decide; [done|].
  apply elem_of_app. by left.
Qed.

Lemma upsert_ids_own document c :
  makeId document ∈ makeId <$> driver_updateOne_upsert (makeId document) document c.
Proof.
  rewrite upsert_ids. case_decide; [done|].
  apply elem_of_app. right. by apply list_elem_of_singleton.
Qed.

Lemma upsert_ids_inv document c k :
  k ∈ makeId <$> driver_updateOne_upsert (makeId document) document c →
  k ∈ makeId <$> c ∨ k = makeId document.
Proof.
  rewrite upsert_ids. case_decide; [by left|].
  intros [?|?%list_elem_of_singleton]%elem_of_app; [by left|by right].
Qed.

End collection.

Section collection_more.
Implicit Types (c : Collection) (d document : VehicleMake) (k : string).

Lemma NoDup_makeId_eq c d1 d2 :
  NoDup (makeId <$> c) → d1 ∈ c → d2 ∈ c → makeId d1 = makeId d2 → d1 = d2.
Proof.
  induction c as [|x c IH]; [by intros _ ?%elem_of_nil|].
  rewrite fmap_cons, NoDup_cons. intros [Hx Hc].
  intros [->|H1]%elem_of_cons [->|H2]%elem_of_cons Heq; try done.
  - exfalso. apply Hx. rewrite Heq. by apply list_elem_of_fmap_2.
  - exfalso. apply Hx. rewrite <-Heq. by apply list_elem_of_fmap_2.
  - by apply IH.
Qed.

Lemma upsert_other k document c d :
  d ∈ c → makeId d ≠ k → d ∈ driver_updateOne_upsert k document c.
Proof.
  intros Hin Hne. unfold driver_updateOne_upsert.
  destruct (update_first k document c) as [c'|] eqn:Hu.
  - apply update_first_split in Hu as (pre & x & post & -> & Hx & _ & ->).
    apply elem_of_app in Hin as [Hin|Hin]; apply elem_of_app; [by left|right].
    apply elem_of_cons in Hin as [->|Hin]; [congruence|].
    apply elem_of_cons. by right.
  - apply elem_of_app. by left.
Qed.

(** With unique keys, an upsert on a key that is present rewrites the
    document holding that key. *)
Lemma upsert_present k document c d :
  NoDup (makeId <$> c) → d ∈ c → makeId d = k →
  mongo_set document d ∈ driver_updateOne_upsert k document c.
Proof.
  intros Hnd Hin Hk. unfold driver_updateOne_upsert.
  destruct (update_first k document c) as [c'|] eqn:Hu.
  - apply update_first_split in Hu as (pre & x & post & -> & Hx & _ & ->).
    assert (x = d) as ->.
    { apply (NoDup_makeId_eq (pre ++ x :: post)); try done; [|congruence].
      apply elem_of_app. right. apply elem_of_cons. by left. }
    apply elem_of_app. right. apply elem_of_cons. by left.
  - apply update_first_None in Hu. exfalso. apply Hu.
    rewrite <-Hk. by apply list_elem_of_fmap_2.
Qed.

(** What [insertOrUpdateMany] does to the collection. *)
Lemma insertOrUpdateMany_fold failAt documents c :
  (insertOrUpdateMany failAt documents c).1 =
  foldl upsert_own c (written failAt documents).
Proof.
  unfold insertOrUpdateMany, driver_bulkWrite, written. simpl.
  assert (∀ l c, foldl (λ c op, driver_updateOne_upsert op.1 op.2 c) c
                   ((λ document, (makeId document, document)) <$> l)
                 = foldl upsert_own c l) as Hfold.
  { intros l. induction l as [|x l IH]; intros c0; simpl; [done|]. by rewrite IH. }
  destruct failAt as [n|]; [|apply Hfold].
  by rewrite <-fmap_take, Hfold.
Qed.

Lemma written_subseteq failAt documents : written failAt documents ⊆ documents.
Proof.
  destruct failAt as [n|]; simpl; [|done].
  apply sublist_subseteq, sublist_take.
Qed.

Lemma foldl_upsert_NoDup documents c :
  NoDup (makeId <$> c) → NoDup (makeId <$> foldl upsert_own c documents).
Proof.
  revert c. induction documents as [|x l IH]; intros c Hc; simpl; [done|].
  by apply IH, upsert_NoDup.
Qed.

Lemma foldl_upsert_ids_incl documents c k :
  k ∈ makeId <$> c → k ∈ makeId <$> foldl upsert_own c documents.
Proof.
  revert c. induction documents as [|x l IH]; intros c Hc; simpl; [done|].
  by apply IH, upsert_ids_incl.
Qed.

Lemma foldl_upsert_ids_inv documents c k :
  k ∈ makeId <$> foldl upsert_own c documents →
  k ∈ makeId <$> c ∨ k ∈ makeId <$> documents.
Proof.
  revert c. induction documents as [|x l IH]; intros c; simpl; [by left|].
  intros [[?| ->]%upsert_ids_inv|?]%IH.
  - by left.
  - right. apply elem_of_cons. by left.
  - right. apply elem_of_cons. by right.
Qed.

Lemma foldl_upsert_ids_own documents c document :
  document ∈ documents → makeId document ∈ makeId <$> foldl upsert_own c documents.
Proof.
  revert c. induction documents as [|x l IH]; intros c; simpl.
  - by intros ?%elem_of_nil.
  - intros [->|Hin]%elem_of_cons; [|by apply IH].
    apply foldl_upsert_ids_incl, upsert_ids_own.
Qed.

End collection_more.

(** ** _saveMakes *)

Section saveMakes.
Implicit Types (c : Collection) (d make : VehicleMake) (k : string).
Implicit Types (remoteMakes : list VehicleMake) (M : gmap string VehicleMake).

Lemma js_truthy_assigned M k : is_Some (M !! k) → js_truthy M k = true.
Proof. intros HM. unfold js_truthy. by rewrite bool_decide_eq_true_2. Qed.

(** The test of the deletion phase on the map of the remote makes:
    the key is a remote one, or names something the map inherits. *)
Lemma js_truthy_remote remoteMakes k :
  js_truthy (arrayToMap remoteMakes makeId) k = true
  ↔ k ∈ makeId <$> remoteMakes
    ∨ js_inherited (arrayToMap remoteMakes makeId) k = true.
Proof.
  unfold js_truthy. rewrite orb_true_iff, bool_decide_eq_true.
  by rewrite arrayToMap_is_Some.
Qed.

Lemma deleteOld_sublist db M dbMakes c :
  deleteOld db M dbMakes c `sublist_of` c.
Proof.
  unfold deleteOld. revert c.
  induction dbMakes as [|x l IH]; intros c; simpl; [done|].
  destruct (js_truthy M (makeId x)); [done|].
  etrans; [apply IH|]. unfold deleteOne.
  destruct (delete_ok db _); simpl; [apply driver_deleteOne_sublist|done].
Qed.

Lemma deleteOld_keeps db M dbMakes c d :
  d ∈ c → js_truthy M (makeId d) = true → d ∈ deleteOld db M dbMakes c.
Proof.
  unfold deleteOld. revert c.
  induction dbMakes as [|x l IH]; intros c Hin HM; simpl; [done|].
  destruct (js_truthy M (makeId x)) eqn:Hx; [by apply IH|].
  apply IH; [|done]. unfold deleteOne.
  destruct (delete_ok db _); simpl; [|done].
  apply driver_deleteOne_other; [done|].
  intros Heq. by rewrite Heq, Hx in HM.
Qed.

Lemma deleteOld_filter_gen db M pre dbMakes :
  (∀ k, delete_ok db k = true) →
  Forall (λ d, js_truthy M (makeId d) = true) pre →
  deleteOld db M dbMakes (pre ++ dbMakes) =
  pre ++ filter (λ d, js_truthy M (makeId d) = true) dbMakes.
Proof.
  intros Hok. unfold deleteOld. revert pre.
  induction dbMakes as [|x l IH]; intros pre Hpre; simpl; [done|].
  destruct (js_truthy M (makeId x)) eqn:Hx.
  - rewrite filter_cons_True by done.
    rewrite (cons_middle x pre l), app_assoc. rewrite IH; [by rewrite <-app_assoc|].
    apply Forall_app. split; [done|]. by apply Forall_singleton.
  - rewrite filter_cons_False by (by rewrite Hx).
    unfold deleteOne. rewrite Hok. simpl.
    rewrite driver_deleteOne_middle; [by apply IH|].
    intros (y & Hy & Hin)%list_elem_of_fmap.
    rewrite Forall_forall in Hpre. apply Hpre in Hin.
    by rewrite <-Hy, Hx in Hin.
Qed.

(** The deletion phase, when the snapshot is read and the calls go
    through: a document stays exactly when the test on its key finds
    something. *)
Lemma deleteOld_filter db remoteMakes c :
  (∀ k, delete_ok db k = true) →
  deleteOld db (arrayToMap remoteMakes makeId) c c =
  filter (λ d, js_truthy (arrayToMap remoteMakes makeId) (makeId d) = true) c.
Proof.
  intros Hok. by rewrite (deleteOld_filter_gen db _ [] c Hok).
Qed.

Lemma makeToSave_makeId M make : makeId (makeToSave M make) = makeId make.
Proof. unfold makeToSave. by destruct (_ && _). Qed.

Lemma makeToSave_makeName M make : makeName (makeToSave M make) = makeName make.
Proof. unfold makeToSave. by destruct (_ && _). Qed.

Lemma makesToSave_ids M remoteMakes :
  makeId <$> (makeToSave M <$> remoteMakes) = makeId <$> remoteMakes.
Proof.
  rewrite <-list_fmap_compose. apply list_fmap_ext. intros _ x _. simpl.
  apply makeToSave_makeId.
Qed.

(** The collection that [_saveMakes] leaves, when it is given an array. *)
Lemma saveMakes_store db remoteMakes c :
  (_saveMakes db (Some remoteMakes) c).1 =
  foldl upsert_own
    (deleteOld db (arrayToMap remoteMakes makeId) (find (find_ok db) c) c)
    (written (bulk_fail_at db)
       (makeToSave (arrayToMap (find (find_ok db) c) makeId) <$> remoteMakes)).
Proof.
  unfold _saveMakes.
  destruct (insertOrUpdateMany _ _ _) as [c2 result] eqn:Hm. simpl.
  by rewrite <-insertOrUpdateMany_fold, Hm.
Qed.

Lemma saveMakes_NoDup db (arg : option (list VehicleMake)) c :
  NoDup (makeId <$> c) → NoDup (makeId <$> (_saveMakes db arg c).1).
Proof.
  intros Hc. destruct arg as [remoteMakes|]; [|done].
  rewrite saveMakes_store. apply foldl_upsert_NoDup.
  eapply sublist_NoDup; [done|]. apply fmap_sublist, deleteOld_sublist.
Qed.

End saveMakes.

(** ** Reconciliation *)

(** The claim of deletion correctness does not hold as it is stated. A
    stale document whose [makeId] is [constructor] is not deleted, no
    store call failing: [remoteMakesMap?.["constructor"]] finds the member
    of [Object.prototype]. And a stale document whose [deleteOne] fails
    stays, the facade answering [false]. *)
Lemma stale_make_survives :
  ("constructor" ∈ makeId <$> Example.stored 4 "constructor" [] :: Example.collection
   ∧ ("constructor" ∉ makeId <$> Example.remoteMakes)
   ∧ "constructor" ∈ makeId <$> (_saveMakes no_faults (Some Example.remoteMakes)
                                   (Example.stored 4 "constructor" []
                                    :: Example.collection)).1)
  ∧ ("D" ∈ makeId <$> Example.collection
     ∧ ("D" ∉ makeId <$> Example.remoteMakes)
     ∧ "D" ∈ makeId <$> (_saveMakes Example.deletes_fail (Some Example.remoteMakes)
                           Example.collection).1).
Proof. split_and!; apply (bool_decide_unpack _); by vm_compute. Qed.

(** C2, deletion correctness, as amended. A [makeId] of the collection
    that the remote list has is in the collection [_saveMakes] leaves,
    whichever store calls fail. When the snapshot is read and the
    deletions go through, a [makeId] of the collection under which the map
    of the remote makes inherits nothing is in the collection [_saveMakes]
    leaves if and only if the remote list has it. *)
Theorem saveMakes_deletes_exactly_stale db (remoteMakes : list VehicleMake)
    (c : Collection) (k : string) :
  k ∈ makeId <$> c →
  (k ∈ makeId <$> remoteMakes →
   k ∈ makeId <$> (_saveMakes db (Some remoteMakes) c).1)
  ∧ (find_ok db = true →
     (∀ k, delete_ok db k = true) →
     js_inherited (arrayToMap remoteMakes makeId) k = false →
     (k ∈ makeId <$> (_saveMakes db (Some remoteMakes) c).1
      ↔ k ∈ makeId <$> remoteMakes)).
Proof.
  intros Hk.
  assert (k ∈ makeId <$> remoteMakes →
          k ∈ makeId <$> (_saveMakes db (Some remoteMakes) c).1) as Hkept.
  { intros HR. rewrite saveMakes_store. apply foldl_upsert_ids_incl.
    apply list_elem_of_fmap in Hk as (d & -> & Hd).
    apply list_elem_of_fmap_2. destruct (find_ok db); simpl; [|done].
    apply deleteOld_keeps; [done|]. apply js_truthy_remote. by left. }
  split; [done|]. intros Hfind Hdel Hown. split; [|done].
  rewrite saveMakes_store, Hfind. simpl. rewrite deleteOld_filter by done.
  intros [Hin|Hin]%foldl_upsert_ids_inv.
  - apply list_elem_of_fmap in Hin as (d & -> & Hd).
    apply list_elem_of_filter in Hd as [[Hd|Hd]%js_truthy_remote _]; [done|].
    by rewrite Hown in Hd.
  - rewrite <-(makesToSave_ids (arrayToMap c makeId)).
    apply list_elem_of_fmap in Hin as (d & -> & Hd).
    apply list_elem_of_fmap_2. by apply written_subseteq in Hd.
Qed.

Lemma saveMakes_deletes_exactly_stale_witness :
  "A" ∈ makeId <$> (_saveMakes Example.deletes_fail (Some Example.remoteMakes)
                      Example.collection).1
  ∧ ("D" ∈ makeId <$> (_saveMakes no_faults (Some Example.remoteMakes)
                         Example.collection).1
     ↔ "D" ∈ makeId <$> Example.remoteMakes).
Proof.
  split.
  - apply (proj1 (saveMakes_deletes_exactly_stale Example.deletes_fail
                    Example.remoteMakes Example.collection "A"
                    ltac:(apply (bool_decide_unpack _); by vm_compute))).
    apply (bool_decide_unpack _). by vm_compute.
  - apply (proj2 (saveMakes_deletes_exactly_stale no_faults
                    Example.remoteMakes Example.collection "D"
                    ltac:(apply (bool_decide_unpack _); by vm_compute))).
    + reflexivity.
    + intros k. reflexivity.
    + by vm_compute.
Defined.





(** ** The event loop *)

Section event_loop.
Context (remote : Remote) (db : DbFaults).
Implicit Types (p : ReadAndSave) (ps : list ReadAndSave) (s : Shared).
Implicit Types (schedule : list nat) (st : Loop) (queue : list VehicleMake).

Lemma list_insert_middle {A} (l1 l2 : list A) (x y : A) :
  <[length l1 := y]> (l1 ++ x :: l2) = l1 ++ y :: l2.
Proof.
  rewrite insert_app_r_alt by done. by rewrite Nat.sub_diag.
Qed.

(** A promise settles after at most two resumptions. *)
Lemma resume_twice p s :
  (resume remote db (resume remote db p s).1 (resume remote db p s).2).1 = Settled.
Proof.
  destruct p as [make|updatedMake|]; simpl; [|done..].
  by destruct (_readVehicleTypesFromAPI remote (makeId make)).
Qed.

Lemma run_app schedule1 schedule2 ps s :
  run remote db (schedule1 ++ schedule2) ps s =
  run remote db schedule2 (run remote db schedule1 ps s).1
                          (run remote db schedule1 ps s).2.
Proof.
  revert ps s. induction schedule1 as [|n l IH]; intros ps s; simpl; [done|].
  destruct (ps !! n) as [p|]; [|apply IH].
  destruct (resume remote db p s) as [p' s']. apply IH.
Qed.

Lemma run_length schedule ps s :
  length (run remote db schedule ps s).1 = length ps.
Proof.
  revert ps s. induction schedule as [|n l IH]; intros ps s; simpl; [done|].
  destruct (ps !! n) as [p|]; [|apply IH].
  destruct (resume remote db p s) as [p' s']. by rewrite IH, length_insert.
Qed.

(** [drain] is a run: the schedule resumes each promise twice, in order. *)
Lemma drain_run_gen settled_ps ps s :
  ∃ schedule,
    run remote db schedule (settled_ps ++ ps) s =
    (settled_ps ++ replicate (length ps) Settled, drain remote db ps s).
Proof.
  revert settled_ps s. induction ps as [|p ps IH]; intros settled_ps s.
  - exists []. simpl. done.
  - destruct (IH (settled_ps ++ [Settled])
                 (resume remote db (resume remote db p s).1
                                   (resume remote db p s).2).2)
      as [schedule Hrun].
    exists (length settled_ps :: length settled_ps :: schedule).
    pose proof (resume_twice p s) as Htwice.
    unfold drain. simpl.
    rewrite list_lookup_middle by done.
    destruct (resume remote db p s) as [p' s'] eqn:Hp. simpl in *.
    rewrite list_insert_middle.
    rewrite list_lookup_middle by done.
    destruct (resume remote db p' s') as [p'' s''] eqn:Hp'. simpl in *. subst p''.
    rewrite list_insert_middle.
    rewrite (cons_middle Settled settled_ps ps), app_assoc, Hrun.
    by rewrite <-app_assoc.
Qed.

Lemma Promise_all_run schedule ps s :
  ∃ schedule',
    run remote db schedule' ps s =
    (replicate (length ps) Settled, Promise_all remote db schedule ps s).
Proof.
  unfold Promise_all.
  pose proof (run_length schedule ps s) as Hlen.
  destruct (run remote db schedule ps s) as [ps' s'] eqn:Hrun. simpl in Hlen.
  destruct (drain_run_gen [] ps' s') as [schedule' Hdrain]. simpl in Hdrain.
  exists (schedule ++ schedule'). rewrite run_app, Hrun. simpl.
  by rewrite Hdrain, Hlen.
Qed.

(** [i] starts at 0 and only grows, so the [break] is never taken. *)
Lemma iteration_i make st : i (iteration remote db make st) = i st.
Proof. unfold iteration. by case_bool_decide. Qed.

Lemma for_of_foldl queue st :
  (0 ≤ i st)%Z →
  for_of remote db queue st =
  foldl (λ st make, incr (iteration remote db make st)) st queue.
Proof.
  revert st. induction queue as [|make queue IH]; intros st Hi; simpl; [done|].
  rewrite decide_False.
  - apply IH. simpl. rewrite iteration_i. lia.
  - rewrite iteration_i. unfold TEST_REQUESTS. lia.
Qed.

End event_loop.

(** An invariant of the type loader: it relates the makes not yet
    started, the promises held and the shared state; it is kept when a
    promise is started, when any promise is resumed, and when the settled
    promises are dropped. Such an invariant holds when
    [_loadAndSaveVehicleTypes] returns and when its last promises have
    settled, whatever the schedules. *)
Section loop_invariant.
Context (remote : Remote) (db : DbFaults).
Context (I : list VehicleMake → list ReadAndSave → Shared → Prop).
Hypothesis I_start : ∀ make queue ps s,
  I (make :: queue) ps s → I queue (ps ++ [AwaitingTypes make]) s.
Hypothesis I_resume : ∀ queue ps s n p,
  I queue ps s → ps !! n = Some p →
  I queue (<[n := (resume remote db p s).1]> ps) (resume remote db p s).2.
Hypothesis I_reset : ∀ queue n s, I queue (replicate n Settled) s → I queue [] s.

Lemma run_invariant queue schedule ps s :
  I queue ps s →
  I queue (run remote db schedule ps s).1 (run remote db schedule ps s).2.
Proof.
  revert ps s. induction schedule as [|n l IH]; intros ps s HI; simpl; [done|].
  destruct (ps !! n) as [p|] eqn:Hp; [|by apply IH].
  pose proof (I_resume queue ps s n p HI Hp) as HI'.
  destruct (resume remote db p s) as [p' s']. by apply IH.
Qed.

Lemma Promise_all_invariant queue schedule ps s :
  I queue ps s → I queue [] (Promise_all remote db schedule ps s).
Proof.
  intros HI. destruct (Promise_all_run remote db schedule ps s) as [schedule' Hrun].
  pose proof (run_invariant queue schedule' ps s HI) as HI'.
  rewrite Hrun in HI'. by eapply I_reset.
Qed.

Lemma iteration_invariant make queue st :
  I (make :: queue) (promises st) (shared st) →
  I queue (promises (iteration remote db make st))
          (shared (iteration remote db make st)).
Proof.
  intros HI%I_start. unfold iteration. case_bool_decide; simpl; [|done].
  by apply Promise_all_invariant.
Qed.

Lemma for_of_invariant queue st :
  (0 ≤ i st)%Z →
  I queue (promises st) (shared st) →
  I [] (promises (for_of remote db queue st)) (shared (for_of remote db queue st)).
Proof.
  revert st. induction queue as [|make queue IH]; intros st Hi HI; simpl; [done|].
  rewrite decide_False by (rewrite iteration_i; unfold TEST_REQUESTS; lia).
  apply IH; simpl.
  - rewrite iteration_i. lia.
  - by apply iteration_invariant.
Qed.

Lemma loadAndSave_invariant random schedules allMakes c :
  I (shuffle random allMakes) []
    {| makesMap := arrayToMap allMakes makeId; store := c |} →
  I [] (in_flight (_loadAndSaveVehicleTypes remote db random schedules allMakes c))
       (on_return (_loadAndSaveVehicleTypes remote db random schedules allMakes c))
  ∧ I [] [] (settled (_loadAndSaveVehicleTypes remote db random schedules allMakes c)).
Proof.
  intros HI. unfold _loadAndSaveVehicleTypes. simpl.
  set (st0 := {| shared := _; promises := []; i := 0%Z;
                 schedules_left := schedules; events := [] |}).
  assert (I [] (promises (for_of remote db (shuffle random allMakes) st0))
               (shared (for_of remote db (shuffle random allMakes) st0))) as Hend.
  { by apply for_of_invariant. }
  split; [done|]. by apply Promise_all_invariant.
Qed.

End loop_invariant.

(** ** Uniqueness of [makeId] *)

Lemma saveVehicleTypes_NoDup db (make : VehicleMake) (c : Collection) :
  NoDup (makeId <$> c) → NoDup (makeId <$> (_saveVehicleTypes db make c).1).
Proof.
  intros Hc. unfold _saveVehicleTypes, insertOrUpdate.
  destruct (upsert_ok db (makeId make)); simpl; [|done]. by apply upsert_NoDup.
Qed.

Lemma resume_NoDup remote db (p : ReadAndSave) (s : Shared) :
  NoDup (makeId <$> store s) →
  NoDup (makeId <$> store (resume remote db p s).2).
Proof.
  intros Hs. destruct p as [make|updatedMake|]; simpl; [|by apply saveVehicleTypes_NoDup|done].
  by destruct (_readVehicleTypesFromAPI remote (makeId make)).
Qed.

Lemma loadAndSave_NoDup remote db random schedules allMakes (c : Collection) :
  NoDup (makeId <$> c) →
  NoDup (makeId <$> store (on_return
    (_loadAndSaveVehicleTypes remote db random schedules allMakes c)))
  ∧ NoDup (makeId <$> store (settled
    (_loadAndSaveVehicleTypes remote db random schedules allMakes c))).
Proof.
  intros Hc.
  apply (loadAndSave_invariant remote db (λ _ _ s, NoDup (makeId <$> store s)));
    try done.
  intros queue ps s n p Hs _. by apply resume_NoDup.
Qed.

Lemma startLoading_NoDup remote db random schedules (c : Collection) :
  NoDup (makeId <$> c) →
  NoDup (makeId <$> (startLoading remote db random schedules c).1)
  ∧ NoDup (makeId <$> snapshot_after (startLoading remote db random schedules c)).
Proof.
  intros Hc. unfold startLoading.
  destruct (_loadAllMakes remote) as [allMakes|e]; [|done].
  pose proof (saveMakes_NoDup db allMakes c Hc) as Hc'.
  destruct (_saveMakes db allMakes c) as [c' [[result allMakes']|e]]; [|done].
  simpl in *. by apply loadAndSave_NoDup.
Qed.

(** C8, uniqueness. In every collection the synchronisation can produce,
    at the end of each of its operations and also while promises of the
    type loader are pending, no two documents have the same [makeId]. *)
Theorem reachable_makeId_unique (c : Collection) :
  reachable c → NoDup (makeId <$> c).
Proof.
  induction 1 as [|db remoteMakes c _ IH|db make c _ IH
                  |remote db random schedules c _ IH
                  |remote db random schedules c _ IH].
  - constructor.
  - by apply saveMakes_NoDup.
  - by apply saveVehicleTypes_NoDup.
  - by apply startLoading_NoDup.
  - by apply startLoading_NoDup.
Qed.

Lemma reachable_makeId_unique_witness :
  NoDup (makeId <$> snapshot_after
           (startLoading Example.remote no_faults [] []
              (_saveVehicleTypes no_faults (Example.shell "D") []).1)).
Proof.
  apply (reachable_makeId_unique
           (snapshot_after
              (startLoading Example.remote no_faults [] []
                 (_saveVehicleTypes no_faults (Example.shell "D") []).1))).
  apply reachable_settled, reachable_saveVehicleTypes, reachable_empty.
Defined.

(** ** Transformation and read interface *)

(** C3, the edge-case extraction policy. For every parsed type-list
    document: a [Count] of 0 gives the empty sequence; a [Count] of 1 with
    a single nested record that is not a list gives the one-element
    sequence holding that record; a [Count] above 1 with a nested list
    gives one element for each element of the list, in source order. *)
Theorem extractVehicleTypeObjects_policy (jsObject : TypesDoc) :
  (Count jsObject = Some 0%Z →
   _extractVehicleTypeObjects jsObject = Return (Some []))
  ∧ (∀ only, Count jsObject = Some 1%Z →
       VehicleTypesForMakeIds jsObject = OneChild only →
       _extractVehicleTypeObjects jsObject = Return (Some [extractOne only]))
  ∧ (∀ n l, Count jsObject = Some n → (1 < n)%Z →
       VehicleTypesForMakeIds jsObject = Children l →
       _extractVehicleTypeObjects jsObject = Return (Some (extractOne <$> l))).
Proof.
  unfold _extractVehicleTypeObjects. split_and!.
  - intros ->. by rewrite decide_True.
  - intros only -> ->. rewrite decide_False by done. by rewrite decide_True.
  - intros n l -> Hn ->.
    by rewrite !decide_False by (intros [= ->]; lia).
Qed.

Lemma extractVehicleTypeObjects_policy_witness :
  _extractVehicleTypeObjects Example.count0 = Return (Some [])
  ∧ _extractVehicleTypeObjects Example.count1 = Return (Some [Example.T "T3"])
  ∧ _extractVehicleTypeObjects Example.count3
    = Return (Some [Example.T "T4"; Example.T "T5"; Example.T "T6"]).
Proof.
  split_and!.
  - apply (proj1 (extractVehicleTypeObjects_policy Example.count0)).
    reflexivity.
  - apply (proj1 (proj2 (extractVehicleTypeObjects_policy Example.count1))
             (Example.raw "T3")); reflexivity.
  - apply (proj2 (proj2 (extractVehicleTypeObjects_policy Example.count3))
             3%Z [Example.raw "T4"; Example.raw "T5"; Example.raw "T6"]);
      [reflexivity | lia | reflexivity].
Defined.

(** C9, identifier stripping. Every record [getAllMakes] returns is a
    stored document, in the order of the collection, without its [_id]
    and with its other fields unchanged; this holds for every collection,
    and when the read fails nothing is returned. Both read endpoints
    return what [getAllMakes] returns. *)
Theorem getAllMakes_strips_id (ok : bool) (c : Collection) :
  Forall2 (λ d r, _id r = None ∧ makeId r = makeId d
                  ∧ makeName r = makeName d ∧ vehicleTypes r = vehicleTypes d)
          (if ok then c else []) (getAllMakes ok c)
  ∧ api_v1_makes ok c = getAllMakes ok c
  ∧ makes_resolve ok c = getAllMakes ok c.
Proof.
  split; [|done]. unfold getAllMakes, find. destruct ok; [|constructor].
  induction c as [|d c IH]; simpl; constructor; done.
Qed.

(** ** The order of processing *)

Lemma started_app (events1 events2 : list Event) :
  started (events1 ++ events2) = started events1 ++ started events2.
Proof.
  induction events1 as [|[k| |ms] l IH]; simpl; [done| |done..]. by rewrite IH.
Qed.

Lemma iteration_started remote db (make : VehicleMake) (st : Loop) :
  started (events (iteration remote db make st)) =
  started (events st) ++ [makeId make].
Proof.
  unfold iteration. case_bool_decide; simpl; rewrite !started_app; simpl.
  - by rewrite app_nil_r.
  - done.
Qed.

Lemma for_of_started remote db (queue : list VehicleMake) (st : Loop) :
  (0 ≤ i st)%Z →
  started (events (for_of remote db queue st)) =
  started (events st) ++ (makeId <$> queue).
Proof.
  revert st. induction queue as [|make queue IH]; intros st Hi; simpl.
  - by rewrite app_nil_r.
  - rewrite decide_False by (rewrite iteration_i; unfold TEST_REQUESTS; lia).
    rewrite IH by (simpl; rewrite iteration_i; lia). simpl.
    by rewrite iteration_started, <-app_assoc.
Qed.

(** A request is started for every make of [allMakes], once for each of
    its occurrences, whatever fails meanwhile. *)
Lemma loadAndSave_started remote db random schedules
    (allMakes : list VehicleMake) (c : Collection) :
  started (recorded (_loadAndSaveVehicleTypes remote db random schedules allMakes c))
  = makeId <$> shuffle random allMakes.
Proof.
  unfold _loadAndSaveVehicleTypes. simpl. by rewrite for_of_started.
Qed.

(** C10, the shuffle is a permutation. [shuffle] returns an array with the
    elements of its input, each as many times as in the input, whatever
    [Math.random] draws; so the type loader starts a request for each
    fetched make exactly once in a cycle. *)
Theorem shuffle_Permutation :
  (∀ (A : Type) (random : list nat) (array : list A),
     shuffle random array ≡ₚ array)
  ∧ (∀ remote db random schedules (allMakes : list VehicleMake) (c : Collection),
       started (recorded
         (_loadAndSaveVehicleTypes remote db random schedules allMakes c))
       ≡ₚ makeId <$> allMakes).
Proof.
  split.
  - intros A random array. apply shuffle_loop_Permutation.
  - intros remote db random schedules allMakes c.
    rewrite loadAndSave_started. apply fmap_Permutation.
    apply shuffle_loop_Permutation.
Qed.

(** C4, the concurrency cap. The claim allows five operations in flight;
    the loop exceeds that at the smallest input that can: with six makes
    it starts six requests before it awaits any, the promises being
    awaited when their number exceeds [CONCURRENT_REQUESTS], not when it
    reaches it. The pause follows the await. Lemma [peak_in_flight_bound]
    gives the peak for every input. *)
Theorem six_requests_in_flight :
  recorded (_loadAndSaveVehicleTypes Example.remote no_faults [] []
              Example.six [])
  = [Started "2"; Started "3"; Started "4"; Started "5"; Started "6";
     Started "1"; AwaitedAll; Slept SLEEP_SECONDS]
  ∧ peak_in_flight
      (recorded (_loadAndSaveVehicleTypes Example.remote no_faults [] []
                   Example.six [])) = 6
  ∧ CONCURRENT_REQUESTS < 6.
Proof. split_and!; [by vm_compute | by vm_compute | unfold CONCURRENT_REQUESTS; lia]. Qed.

(** ** Failures *)

(** The claim C6 as stated fails where the [bulkWrite] of step 2 raises:
    the facade catches the error, the call of [startLoading] is not
    rejected, a request is started for each of the three makes, and the
    collection has changed (the stale D is deleted, A was rewritten before
    the failure, B and C get their types). *)
Lemma persistence_error_is_not_fatal :
  shell_persistence_fails Example.remote Example.bulk_fails Example.collection
  ∧ ¬ aborted (startLoading Example.remote Example.bulk_fails [] []
                 Example.collection)
  ∧ (∃ cycle,
       (startLoading Example.remote Example.bulk_fails [] []
          Example.collection).2 = Return cycle
       ∧ started (recorded cycle) = ["B"; "C"; "A"])
  ∧ snapshot_after (startLoading Example.remote Example.bulk_fails [] []
                      Example.collection)
    = [Example.stored 1 "A" [Example.T "T1"];
       Example.stored 2 "B" [Example.T "T3"];
       {| _id := Some 3; makeId := "C"; makeName := "C";
          vehicleTypes := Arr [Example.T "T4"; Example.T "T5"] |}]
  ∧ snapshot_after (startLoading Example.remote Example.bulk_fails [] []
                      Example.collection)
    ≠ Example.collection.
Proof.
  split_and!.
  - eexists. split; [reflexivity|]. right. right. reflexivity.
  - intros [e He]. vm_compute in He. discriminate.
  - eexists. split; [reflexivity|]. by vm_compute.
  - by vm_compute.
  - vm_compute. discriminate.
Qed.

(** C6, amended. When the makes-level fetch fails (the request or the
    parse raises, or the document has no list of makes), the call of
    [startLoading] is rejected before any write: the type loader is not
    called and the collection is left as it was. Once the list of makes is
    there, no failure of a store call rejects the run: a request is
    started for every fetched make. *)
Theorem fetch_failure_aborts remote db random schedules (c : Collection) :
  (∀ e, _loadAllMakes remote = Throw e →
        startLoading remote db random schedules c = (c, Throw e))
  ∧ (_loadAllMakes remote = Return None →
     startLoading remote db random schedules c = (c, Throw TypeError))
  ∧ (∀ allMakes, _loadAllMakes remote = Return (Some allMakes) →
       ∃ c' cycle,
         startLoading remote db random schedules c = (c', Return cycle)
         ∧ started (recorded cycle) ≡ₚ makeId <$> allMakes).
Proof.
  unfold startLoading. split_and!.
  - by intros e ->.
  - by intros ->.
  - intros allMakes ->. unfold _saveMakes.
    destruct (insertOrUpdateMany _ _ _) as [c2 result]. simpl.
    eexists _, _. split; [done|].
    rewrite loadAndSave_started.
    etrans; [apply fmap_Permutation, shuffle_loop_Permutation|].
    by rewrite makesToSave_ids.
Qed.

Lemma fetch_failure_aborts_witness :
  startLoading Example.offline no_faults [] [] Example.collection
  = (Example.collection, Throw NetworkError)
  ∧ startLoading Example.listless no_faults [] [] Example.collection
    = (Example.collection, Throw TypeError)
  ∧ ∃ c' cycle,
      startLoading Example.remote Example.bulk_fails [] [] Example.collection
      = (c', Return cycle)
      ∧ started (recorded cycle) ≡ₚ makeId <$> Example.remoteMakes.
Proof.
  split_and!.
  - apply (proj1 (fetch_failure_aborts Example.offline no_faults [] []
                    Example.collection)). reflexivity.
  - apply (proj1 (proj2 (fetch_failure_aborts Example.listless no_faults [] []
                           Example.collection))). reflexivity.
  - apply (proj2 (proj2 (fetch_failure_aborts Example.remote Example.bulk_fails
                           [] [] Example.collection))). reflexivity.
Defined.

(** ** The type loader *)

Section base_invariant.
Context (remote : Remote) (db : DbFaults) (allMakes : list VehicleMake).
Local Notation "'M0'" := (arrayToMap allMakes makeId).
Implicit Types (p : ReadAndSave) (ps : list ReadAndSave) (s : Shared).
Implicit Types (queue : list VehicleMake) (k : string).

Lemma M0_key k x : M0 !! k = Some x → makeId x = k.
Proof. by intros [_ ?]%arrayToMap_lookup_Some. Qed.

Lemma spread_strip (x y : VehicleMake) vt :
  delete_vehicleTypes x = delete_vehicleTypes y →
  spread_vehicleTypes (Some x) vt = spread_vehicleTypes (Some y) vt.
Proof.
  unfold delete_vehicleTypes, spread_vehicleTypes. simpl. by intros [= -> -> ->].
Qed.

Lemma strip_spread (x : VehicleMake) vt :
  delete_vehicleTypes (spread_vehicleTypes (Some x) vt) = delete_vehicleTypes x.
Proof. done. Qed.

(** What resuming a promise does, under the base invariant. *)
Lemma resume_cases queue ps s n p :
  Base remote M0 queue ps s → ps !! n = Some p →
  (p = Settled ∧ resume remote db p s = (Settled, s))
  ∨ (∃ make e, p = AwaitingTypes make
       ∧ _readVehicleTypesFromAPI remote (makeId make) = Throw e
       ∧ resume remote db p s = (Settled, s))
  ∨ (∃ make x vt, p = AwaitingTypes make
       ∧ M0 !! makeId make = Some x
       ∧ _readVehicleTypesFromAPI remote (makeId make) = Return vt
       ∧ resume remote db p s =
         (AwaitingSave (spread_vehicleTypes (Some x) vt),
          {| makesMap := <[makeId make := spread_vehicleTypes (Some x) vt]>
                           (makesMap s);
             store := store s |}))
  ∨ (∃ updatedMake x vt, p = AwaitingSave updatedMake
       ∧ M0 !! makeId updatedMake = Some x
       ∧ _readVehicleTypesFromAPI remote (makeId updatedMake) = Return vt
       ∧ updatedMake = spread_vehicleTypes (Some x) vt
       ∧ resume remote db p s =
         (Settled,
          {| makesMap := makesMap s;
             store := (_saveVehicleTypes db updatedMake (store s)).1 |})).
Proof.
  intros (Hmap & _ & Hps) Hp.
  rewrite Forall_forall in Hps.
  pose proof (Hps p (list_elem_of_lookup_2 _ _ _ Hp)) as Hok.
  destruct p as [make|updatedMake|]; simpl in *.
  - destruct Hok as [x Hx].
    destruct (_readVehicleTypesFromAPI remote (makeId make)) as [vt|e] eqn:Hread.
    + right. right. left. exists make, x, vt. split_and!; try done.
      specialize (Hmap (makeId make)). rewrite Hx in Hmap.
      destruct (makesMap s !! makeId make) as [y|] eqn:Hy; [|done].
      simpl in Hmap.
      assert (delete_vehicleTypes y = delete_vehicleTypes x) as Hxy by congruence.
      by rewrite (spread_strip y x vt Hxy).
    + right. left. by exists make, e.
  - destruct Hok as (x & vt & Hx & Hread & Hum).
    right. right. right. by exists updatedMake, x, vt.
  - by left.
Qed.

Lemma Base_start make queue ps s :
  Base remote M0 (make :: queue) ps s →
  Base remote M0 queue (ps ++ [AwaitingTypes make]) s.
Proof.
  intros (Hmap & Hqueue & Hps). split_and!; [done| |].
  - intros m Hm. apply Hqueue, elem_of_cons. by right.
  - apply Forall_app. split; [done|]. apply Forall_singleton. simpl.
    apply Hqueue, elem_of_cons. by left.
Qed.

Lemma Base_resume queue ps s n p :
  Base remote M0 queue ps s → ps !! n = Some p →
  Base remote M0 queue (<[n := (resume remote db p s).1]> ps)
       (resume remote db p s).2.
Proof.
  intros HB Hp. pose proof HB as (Hmap & Hqueue & Hps).
  destruct (resume_cases queue ps s n p HB Hp)
    as [[-> ->]|[(make & e & -> & Hread & ->)
       |[(make & x & vt & -> & Hx & Hread & ->)
        |(updatedMake & x & vt & -> & Hx & Hread & Hum & ->)]]];
    unfold Base; simpl.
  - by rewrite list_insert_id.
  - split_and!; [done..|]. by apply Forall_insert.
  - split_and!; [|done|].
    + intros k. destruct (decide (makeId make = k)) as [<-|Hne].
      * by rewrite lookup_insert_eq, Hx.
      * by rewrite lookup_insert_ne.
    + apply Forall_insert; [done|]. simpl.
      rewrite (M0_key _ _ Hx). by exists x, vt.
  - split_and!; [done..|]. by apply Forall_insert.
Qed.

Lemma Base_reset queue n s :
  Base remote M0 queue (replicate n Settled) s → Base remote M0 queue [] s.
Proof. intros (Hmap & Hqueue & _). by split_and!. Qed.

Lemma Base_init random (c : Collection) :
  Base remote M0 (shuffle random allMakes) []
       {| makesMap := M0; store := c |}.
Proof.
  split_and!; [done| |done].
  intros make Hmake. apply arrayToMap_is_Some, list_elem_of_fmap_2.
  by rewrite <-(shuffle_loop_Permutation random (length allMakes) allMakes).
Qed.

(** An invariant that is kept wherever the base invariant holds is an
    invariant of the loader. *)
Section with_base.
Context (J : list VehicleMake → list ReadAndSave → Shared → Prop).
Hypothesis J_start : ∀ make queue ps s,
  Base remote M0 (make :: queue) ps s →
  J (make :: queue) ps s → J queue (ps ++ [AwaitingTypes make]) s.
Hypothesis J_resume : ∀ queue ps s n p,
  Base remote M0 queue ps s →
  J queue ps s → ps !! n = Some p →
  J queue (<[n := (resume remote db p s).1]> ps) (resume remote db p s).2.
Hypothesis J_reset : ∀ queue n s,
  J queue (replicate n Settled) s → J queue [] s.

Lemma loadAndSave_invariant_base random schedules (c : Collection) :
  J (shuffle random allMakes) [] {| makesMap := M0; store := c |} →
  J [] (in_flight (_loadAndSaveVehicleTypes remote db random schedules allMakes c))
       (on_return (_loadAndSaveVehicleTypes remote db random schedules allMakes c))
  ∧ J [] [] (settled (_loadAndSaveVehicleTypes remote db random schedules allMakes c)).
Proof.
  intros HJ.
  destruct (loadAndSave_invariant remote db
              (λ queue ps s, Base remote M0 queue ps s ∧ J queue ps s))
    with (random := random) (schedules := schedules) (allMakes := allMakes) (c := c)
    as [[_ H1] [_ H2]]; [| | | |done].
  - intros make queue ps s [HB HJ']. split; [by apply Base_start|by apply J_start].
  - intros queue ps s n p [HB HJ'] Hp.
    split; [by apply Base_resume|by apply J_resume].
  - intros queue n s [HB HJ']. split; [by eapply Base_reset|by eapply J_reset].
  - split; [apply Base_init|done].
Qed.

End with_base.
End base_invariant.

Lemma mapToArray_elem {A} (mapObject : JsObject A) k x :
  k ≠ "__proto__" → mapObject !! k = Some x → x ∈ mapToArray mapObject.
Proof.
  intros Hne Hk. unfold mapToArray, Object_values, js_own.
  apply (list_elem_of_fmap_2' snd _ (k, x)); [|done].
  apply elem_of_map_to_list. by rewrite lookup_delete_ne.
Qed.


Lemma to_field_not_Missing {A} (v : option A) : to_field v ≠ Missing.
Proof. by destruct v. Qed.

Section isolation.
Context (remote : Remote) (db : DbFaults) (allMakes : list VehicleMake).
Context (random : list nat) (schedules : list (list nat)) (c : Collection).
Local Notation "'M0'" := (arrayToMap allMakes makeId).
Local Notation "'cycle'" :=
  (_loadAndSaveVehicleTypes remote db random schedules allMakes c).



End isolation.




(** ** What a run leaves in the collection *)

Section upsert_present.
Implicit Types (c : Collection) (d document : VehicleMake) (k : string).

Lemma fmap_id_ne k document c :
  k ∉ makeId <$> c →
  (λ d, if decide (makeId d = k) then mongo_set document d else d) <$> c = c.
Proof.
  induction c as [|x c IH]; [done|].
  rewrite !fmap_cons, not_elem_of_cons. intros [Hx Hc].
  rewrite decide_False by done. by rewrite IH.
Qed.

(** With unique keys, an upsert on a key that is present is a pointwise
    update. *)
Lemma upsert_present_map k document c :
  NoDup (makeId <$> c) → k ∈ makeId <$> c →
  driver_updateOne_upsert k document c =
  (λ d, if decide (makeId d = k) then mongo_set document d else d) <$> c.
Proof.
  intros Hnd Hk. unfold driver_updateOne_upsert.
  destruct (update_first_Some k document c Hk) as [c' Hu]. rewrite Hu.
  apply update_first_split in Hu as (pre & x & post & -> & Hx & Hpre & ->).
  rewrite fmap_app, fmap_cons in Hnd.
  apply NoDup_app in Hnd as (_ & _ & Hpost).
  apply NoDup_cons in Hpost as [Hpost _]. rewrite Hx in Hpost.
  rewrite fmap_app, fmap_cons, decide_True by done.
  by rewrite !fmap_id_ne.
Qed.

Lemma Forall2_makeId_eq (P : VehicleMake → VehicleMake → Prop) c c' :
  (∀ d d', P d d' → makeId d' = makeId d) →
  Forall2 P c c' → makeId <$> c' = makeId <$> c.
Proof.
  intros HP Hcc. apply list_eq_Forall2, Forall2_fmap.
  eapply Forall2_flip, Forall2_impl; [done|]. intros d d' Hd. simpl. by apply HP.
Qed.

Lemma Forall2_eq_fmap (f : VehicleMake → VehicleMake) c c' :
  Forall2 (λ d d', d' = f d) c c' → c' = f <$> c.
Proof. induction 1 as [|d d' c c' -> _ IH]; [done|]. by rewrite IH. Qed.

End upsert_present.

Section loader_result.
Context (remote : Remote) (db : DbFaults) (allMakes : list VehicleMake).
Context (c : Collection).
Hypothesis upserts_ok : ∀ k, upsert_ok db k = true.
Hypothesis c_NoDup : NoDup (makeId <$> c).
Hypothesis c_has_all : ∀ make, make ∈ allMakes → makeId make ∈ makeId <$> c.
Local Notation "'M0'" := (arrayToMap allMakes makeId).

Lemma fetched_makeId d : makeId (fetched remote allMakes d) = makeId d.
Proof.
  unfold fetched. destruct (M0 !! makeId d) as [x|] eqn:Hx; [|done].
  destruct (_readVehicleTypesFromAPI remote (makeId d)); [|done].
  simpl. by apply (M0_key allMakes).
Qed.

Lemma fetched_id d : _id (fetched remote allMakes d) = _id d.
Proof.
  unfold fetched. destruct (M0 !! makeId d) as [x|]; [|done].
  by destruct (_readVehicleTypesFromAPI remote (makeId d)).
Qed.

Lemma tracks_makeId queue ps d d' :
  tracks remote allMakes queue ps d d' → makeId d' = makeId d.
Proof. intros [->|[-> _]]; [apply fetched_makeId|done]. Qed.

Lemma tracks_id queue ps d d' :
  tracks remote allMakes queue ps d d' → _id d' = _id d.
Proof. intros [->|[-> _]]; [apply fetched_id|done]. Qed.

Lemma mongo_set_same_id document d d' :
  _id d' = _id d → vehicleTypes document ≠ Missing →
  mongo_set document d' = mongo_set document d.
Proof.
  unfold mongo_set. intros -> Hty. by destruct (vehicleTypes document).
Qed.

(** The collection after the type loader, when every key of [allMakes] is
    stored and every save goes through: each document is what the loader
    makes of it, whatever the order of processing and the schedules. *)
Lemma loadAndSave_store random schedules :
  store (settled (_loadAndSaveVehicleTypes remote db random schedules allMakes c))
  = fetched remote allMakes <$> c.
Proof.
  set (J := λ queue ps (s : Shared),
         Forall2 (tracks remote allMakes queue ps) c (store s)).
  destruct (loadAndSave_invariant_base remote db allMakes J)
    with (random := random) (schedules := schedules) (c := c)
    as [_ Hend].
  - (* a promise is started *)
    intros make queue ps s _ HJ. eapply Forall2_impl; [exact HJ|].
    intros d d' [->|[-> [(n & p & Hp & Hpend)|Hq]]]; [by left|right; split; [done|]..].
    + left. exists n, p. split; [|done]. by apply lookup_app_l_Some.
    + rewrite fmap_cons in Hq. apply elem_of_cons in Hq as [Hq|Hq]; [|by right].
      left. exists (length ps), (AwaitingTypes make). split; [|done].
      by apply list_lookup_middle.
  - (* a promise is resumed *)
    intros queue ps s n p HB HJ Hp.
    destruct (resume_cases remote db allMakes queue ps s n p HB Hp)
      as [[-> ->]|[(m & e & -> & Hm & ->)
         |[(m & x & vt & -> & Hx & Hm & ->)
          |(um & x & vt & -> & Hx & Hm & Hum & ->)]]]; unfold J; simpl.
    + by rewrite list_insert_id.
    + eapply Forall2_impl; [exact HJ|].
      intros d d' [->|[-> [(n' & p' & Hp' & Hpend)|Hq]]];
        [by left| |by right; split; [|right]].
      destruct (decide (n = n')) as [<-|Hne].
      * left. rewrite Hp in Hp'. injection Hp' as <-. simpl in Hpend.
        unfold fetched. rewrite <-Hpend, Hm. by destruct (M0 !! makeId m).
      * right. split; [done|]. left. exists n', p'.
        by rewrite list_lookup_insert_ne.
    + eapply Forall2_impl; [exact HJ|].
      intros d d' [->|[-> [(n' & p' & Hp' & Hpend)|Hq]]];
        [by left| |by right; split; [|right]].
      right. split; [done|]. left. destruct (decide (n = n')) as [<-|Hne].
      * exists n, (AwaitingSave (spread_vehicleTypes (Some x) vt)).
        split; [apply list_lookup_insert_eq; by eapply lookup_lt_Some|].
        rewrite Hp in Hp'. injection Hp' as <-. simpl in *.
        by rewrite (M0_key allMakes _ _ Hx).
      * exists n', p'. by rewrite list_lookup_insert_ne.
    + unfold _saveVehicleTypes, insertOrUpdate. rewrite upserts_ok. simpl.
      assert (makeId <$> store s = makeId <$> c) as Hids.
      { eapply Forall2_makeId_eq; [|exact HJ]. apply tracks_makeId. }
      assert (makeId um ∈ makeId <$> c) as Hin.
      { apply arrayToMap_lookup_Some in Hx as [Hx Hk]. rewrite <-Hk. by apply c_has_all. }
      rewrite upsert_present_map by (by rewrite Hids).
      apply Forall2_fmap_r. eapply Forall2_impl; [exact HJ|].
      intros d d' Hdd'. simpl.
      pose proof (tracks_makeId _ _ _ _ Hdd') as Hk.
      pose proof (tracks_id _ _ _ _ Hdd') as Hi.
      destruct (decide (makeId d' = makeId um)) as [Heq|Hne].
      * left. rewrite (mongo_set_same_id um d d' Hi)
          by (rewrite Hum; apply to_field_not_Missing).
        unfold fetched. rewrite <-Hk, Heq, Hx, Hm. by rewrite Hum.
      * destruct Hdd' as [->|[-> [(n' & p' & Hp' & Hpend)|Hq]]];
          [by left| |by right; split; [|right]].
        right. split; [done|]. left. exists n', p'. split; [|done].
        rewrite list_lookup_insert_ne; [done|].
        intros ->. rewrite Hp in Hp'. by injection Hp' as <-.
  - (* the settled promises are dropped *)
    intros queue n s HJ. eapply Forall2_impl; [exact HJ|].
    intros d d' [->|[-> [(n' & p' & Hp' & Hpend)|Hq]]];
      [by left| |by right; split; [|right]].
    apply lookup_replicate in Hp' as [-> _]. done.
  - (* at the start *)
    apply Forall_Forall2_diag, Forall_forall. intros d Hd.
    unfold tracks, fetched.
    destruct (M0 !! makeId d) as [x|] eqn:Hx; [|by left].
    destruct (_readVehicleTypesFromAPI remote (makeId d)); [|by left].
    right. split; [done|]. right.
    assert (makeId d ∈ makeId <$> allMakes) as Hin.
    { apply arrayToMap_is_Some. by eexists. }
    apply list_elem_of_fmap in Hin as (m & -> & Hm).
    apply list_elem_of_fmap_2.
    by rewrite (shuffle_loop_Permutation random (length allMakes) allMakes).
  - apply Forall2_eq_fmap. eapply Forall2_impl; [exact Hend|].
    intros d d' [->|[-> [(n' & p' & Hp' & _)|Hq]]]; [done|done|].
    by apply elem_of_nil in Hq.
Qed.

End loader_result.

Section batch.
Context (M : gmap string VehicleMake).
Implicit Types (c : Collection) (d make : VehicleMake) (k : string).
Implicit Types (remoteMakes : list VehicleMake).

Lemma arrayToMap_fmap {A} (f : A → A) (key : A → string) (array : list A) k :
  (∀ x, key (f x) = key x) →
  arrayToMap (f <$> array) key !! k = f <$> arrayToMap array key !! k.
Proof.
  intros Hkey. induction array as [|x array IH] using rev_ind.
  - unfold arrayToMap. simpl. by rewrite lookup_empty.
  - rewrite fmap_app. simpl. rewrite !arrayToMap_snoc, Hkey.
    destruct (decide (key x = k)) as [<-|Hne].
    + by rewrite !lookup_insert_eq.
    + by rewrite !lookup_insert_ne.
Qed.

Lemma makeToSave_shell make :
  vehicleTypes make = Arr [] →
  vehicleTypes (makeToSave M make)
  = if has_types (M !! makeId make) then Missing else Arr [].
Proof.
  intros Hty. unfold makeToSave, no_types. rewrite Hty.
  by destruct (has_types _).
Qed.

Lemma reconciled_makeId remoteMakes d :
  makeId (reconciled M remoteMakes d) = makeId d.
Proof.
  unfold reconciled.
  destruct (arrayToMap remoteMakes makeId !! makeId d) as [make|] eqn:Hm; [|done].
  simpl. rewrite makeToSave_makeId. by apply arrayToMap_lookup_Some in Hm as [_ ?].
Qed.

(** The batch of [_saveMakes] on a collection that has every remote key:
    a pointwise update. *)
Lemma batch_present remoteMakes c :
  NoDup (makeId <$> c) →
  (∀ make, make ∈ remoteMakes → makeId make ∈ makeId <$> c) →
  (∀ make, make ∈ remoteMakes → vehicleTypes make = Arr []) →
  foldl upsert_own c (makeToSave M <$> remoteMakes)
  = reconciled M remoteMakes <$> c.
Proof.
  intros Hnd. induction remoteMakes as [|m R IH] using rev_ind; intros Hin Hshell.
  - simpl. rewrite <-(list_fmap_id c) at 1. apply list_fmap_ext.
    intros i d _. unfold reconciled, arrayToMap. simpl. by rewrite lookup_empty.
  - rewrite fmap_app, foldl_app. simpl. rewrite IH; cycle 1.
    { intros x Hx. apply Hin, elem_of_app. by left. }
    { intros x Hx. apply Hshell, elem_of_app. by left. }
    assert (makeId <$> (reconciled M R <$> c) = makeId <$> c) as Hids.
    { rewrite <-list_fmap_compose. apply list_fmap_ext. intros i d _. simpl.
      apply reconciled_makeId. }
    unfold upsert_own at 1. rewrite upsert_present_map; cycle 1.
    { by rewrite Hids. }
    { rewrite Hids, makeToSave_makeId. apply Hin, elem_of_app. right.
      by apply list_elem_of_singleton. }
    rewrite <-list_fmap_compose. apply list_fmap_ext. intros i d _. simpl.
    rewrite reconciled_makeId, makeToSave_makeId.
    unfold reconciled at 3. rewrite arrayToMap_snoc.
    destruct (decide (makeId d = makeId m)) as [Heq|Hne].
    + rewrite <-Heq, lookup_insert_eq. unfold reconciled.
      destruct (arrayToMap R makeId !! makeId d) as [m'|] eqn:Hm'; [|done].
      apply arrayToMap_lookup_Some in Hm' as [Hm' Hk'].
      unfold mongo_set. simpl. f_equal.
      rewrite !makeToSave_shell;
        [|apply Hshell, elem_of_app; by left
         |apply Hshell, elem_of_app; right; by apply list_elem_of_singleton].
      rewrite Hk', <-Heq. by destruct (has_types _).
    + by rewrite lookup_insert_ne.
Qed.

(** Where an upsert leaves a document from, when the keys are unique. *)
Lemma upsert_own_inv c document d :
  NoDup (makeId <$> c) →
  d ∈ upsert_own c document →
  (d ∈ c ∧ makeId d ≠ makeId document)
  ∨ (∃ x, x ∈ c ∧ makeId x = makeId document ∧ d = mongo_set document x)
  ∨ ((makeId document ∉ makeId <$> c) ∧ d = upserted document c).
Proof.
  intros Hnd. unfold upsert_own, driver_updateOne_upsert.
  destruct (update_first _ _ c) as [c'|] eqn:Hu.
  - apply update_first_split in Hu as (pre & x & post & -> & Hx & Hpre & ->).
    rewrite fmap_app, fmap_cons in Hnd.
    apply NoDup_app in Hnd as (_ & _ & Hpost).
    apply NoDup_cons in Hpost as [Hpost _]. rewrite Hx in Hpost.
    intros [Hd|[Hd|Hd]%elem_of_cons]%elem_of_app; [|subst d|].
    + left. split; [apply elem_of_app; by left|].
      intros Heq. apply Hpre. rewrite <-Heq. by apply list_elem_of_fmap_2.
    + right. left. exists x. split_and!; [|done..].
      apply elem_of_app. right. apply elem_of_cons. by left.
    + left. split; [apply elem_of_app; right; apply elem_of_cons; by right|].
      intros Heq. apply Hpost. rewrite <-Heq. by apply list_elem_of_fmap_2.
  - apply update_first_None in Hu.
    intros [Hd| ->%list_elem_of_singleton]%elem_of_app.
    + left. split; [done|]. intros Heq. apply Hu. rewrite <-Heq.
      by apply list_elem_of_fmap_2.
    + by right; right.
Qed.

End batch.

Lemma filter_all {A} (P : A → Prop) `{∀ x, Decision (P x)} (l : list A) :
  (∀ x, x ∈ l → P x) → filter P l = l.
Proof.
  induction l as [|x l IH]; intros Hall; [done|].
  rewrite filter_cons_True by (apply Hall, elem_of_cons; by left).
  rewrite IH; [done|]. intros y Hy. apply Hall, elem_of_cons. by right.
Qed.

(** The documents the batch of [_saveMakes] leaves under the remote keys
    are shells or keep an array of types; the other documents were there
    before. *)
Lemma batch_shelled (M : gmap string VehicleMake)
    (remoteMakes : list VehicleMake) (c : Collection) :
  NoDup (makeId <$> c) →
  (∀ d, d ∈ c → M !! makeId d = Some d) →
  (∀ make, make ∈ remoteMakes → has_types (M !! makeId make) = true →
           makeId make ∈ makeId <$> c) →
  (∀ make, make ∈ remoteMakes → vehicleTypes make = Arr []) →
  ∀ d, d ∈ foldl upsert_own c (makeToSave M <$> remoteMakes) →
       (makeId d ∈ makeId <$> remoteMakes → shelled remoteMakes d)
       ∧ (makeId d ∉ makeId <$> remoteMakes → d ∈ c).
Proof.
  intros Hnd HM. induction remoteMakes as [|m R IH] using rev_ind;
    intros Hhas Hshell d Hd.
  - simpl in *. split; [by intros ?%elem_of_nil|done].
  - rewrite fmap_app, foldl_app in Hd. simpl in Hd.
    assert (∀ make, make ∈ R → make ∈ R ++ [m]) as Hincl.
    { intros make ?. apply elem_of_app. by left. }
    assert (m ∈ R ++ [m]) as Hm.
    { apply elem_of_app. right. by apply list_elem_of_singleton. }
    specialize (IH (λ make Hin, Hhas make (Hincl make Hin))
                   (λ make Hin, Hshell make (Hincl make Hin))).
    pose proof (makeToSave_shell M m (Hshell m Hm)) as Hdoc.
    apply upsert_own_inv in Hd as [[Hd Hne]|[(x & Hx & Hxk & ->)|[Hnew ->]]];
      [| | |by apply foldl_upsert_NoDup].
    + rewrite makeToSave_makeId in Hne.
      destruct (IH d Hd) as [IH1 IH2]. split.
      * rewrite fmap_app. intros [Hin|Hin%list_elem_of_singleton]%elem_of_app;
          [|done].
        destruct (IH1 Hin) as (make & l & Hmake & Hname & Hty).
        exists make, l. split_and!; [|done..].
        by rewrite arrayToMap_snoc, lookup_insert_ne.
      * rewrite fmap_app, not_elem_of_app. intros [Hin _]. by apply IH2.
    + rewrite makeToSave_makeId in Hxk. split.
      * intros _. simpl.
        assert (∃ l, vehicleTypes (mongo_set (makeToSave M m) x) = Arr l) as [l Hl].
        { simpl. rewrite Hdoc.
          destruct (has_types (M !! makeId m)) eqn:Hh; [|by eexists].
          destruct (IH x Hx) as [IH1 IH2].
          destruct (decide (makeId x ∈ makeId <$> R)) as [Hin|Hin].
          - destruct (IH1 Hin) as (_ & l & _ & _ & Hty). by eexists.
          - rewrite <-Hxk, (HM x (IH2 Hin)) in Hh. simpl in Hh.
            destruct (vehicleTypes x) as [| |l]; try done. by eexists. }
        exists m, l. split_and!; [|simpl; by rewrite makeToSave_makeName|exact Hl].
        simpl. rewrite makeToSave_makeId.
        by rewrite arrayToMap_snoc, lookup_insert_eq.
      * intros Hn. exfalso. apply Hn. simpl. rewrite makeToSave_makeId.
        by apply list_elem_of_fmap_2.
    + rewrite makeToSave_makeId in Hnew. split.
      * intros _. exists m, []. simpl. split_and!.
        -- rewrite makeToSave_makeId. by rewrite arrayToMap_snoc, lookup_insert_eq.
        -- by rewrite makeToSave_makeName.
        -- rewrite Hdoc. destruct (has_types (M !! makeId m)) eqn:Hh; [|done].
           exfalso. apply Hnew. by apply foldl_upsert_ids_incl, Hhas.
      * intros Hn. exfalso. apply Hn. simpl. rewrite makeToSave_makeId.
        by apply list_elem_of_fmap_2.
Qed.

Section idempotence.
Context (remote : Remote) (db : DbFaults) (remoteMakes : list VehicleMake).
Hypothesis db_faultless : faultless db.
Hypothesis fetched_makes : _loadAllMakes remote = Return (Some remoteMakes).
Implicit Types (c s : Collection) (d : VehicleMake).

(** The makes [_loadAllMakes] returns are shells. *)
Lemma loadAllMakes_shells make :
  make ∈ remoteMakes → vehicleTypes make = Arr [].
Proof.
  revert fetched_makes. unfold _loadAllMakes, _extractMakeObjects.
  destruct (_readMakesFromAPI remote) as [doc|]; [|done].
  destruct (AllVehicleMakes doc) as [| |makes]; try done.
  intros [= <-]. by intros (raw & -> & _)%list_elem_of_fmap.
Qed.

Local Notation "'batch'" := (batch remoteMakes).

Lemma filter_NoDup (P : VehicleMake → Prop) `{∀ d, Decision (P d)} c :
  NoDup (makeId <$> c) → NoDup (makeId <$> filter P c).
Proof.
  intros Hc. eapply sublist_NoDup; [done|]. apply fmap_sublist, sublist_filter.
Qed.

Lemma batch_NoDup c : NoDup (makeId <$> c) → NoDup (makeId <$> batch c).
Proof. intros Hc. by apply foldl_upsert_NoDup, filter_NoDup. Qed.

Lemma batch_has_all c make :
  make ∈ remoteMakes → makeId make ∈ makeId <$> batch c.
Proof.
  intros Hmake. rewrite <-(makeToSave_makeId (arrayToMap c makeId)).
  by apply foldl_upsert_ids_own, list_elem_of_fmap_2.
Qed.

(** A whole run in closed form: the batch, then what the loader makes of
    each document. *)
Lemma run_snapshot random schedules c :
  NoDup (makeId <$> c) →
  snapshot_after (startLoading remote db random schedules c)
  = fetched remote (makeToSave (arrayToMap c makeId) <$> remoteMakes)
    <$> batch c.
Proof.
  intros Hc. destruct db_faultless as (Hfind & Hdel & Hbulk & Hups).
  unfold startLoading. rewrite fetched_makes.
  pose proof (saveMakes_store db remoteMakes c) as Hstore.
  unfold _saveMakes in *. simpl in *. rewrite Hfind, Hbulk in *. simpl in *.
  rewrite deleteOld_filter in * by done. rewrite Hstore.
  apply loadAndSave_store; [done|by apply batch_NoDup|].
  intros make (m & -> & Hm)%list_elem_of_fmap.
  rewrite makeToSave_makeId. by apply batch_has_all.
Qed.

Lemma arrayToMap_NoDup c d :
  NoDup (makeId <$> c) → d ∈ c → arrayToMap c makeId !! makeId d = Some d.
Proof.
  intros Hc Hd.
  destruct (proj2 (arrayToMap_is_Some c makeId (makeId d))) as [x Hx].
  { by apply list_elem_of_fmap_2. }
  rewrite Hx. f_equal. apply arrayToMap_lookup_Some in Hx as [Hx Hk].
  by apply (NoDup_makeId_eq c).
Qed.

(** The first run leaves a collection with unique keys that has every
    remote key; its documents under the remote keys are stable, the others
    are documents of [c] that the deletion phase passes over. *)
Lemma run_stable c :
  NoDup (makeId <$> c) →
  let s := fetched remote (makeToSave (arrayToMap c makeId) <$> remoteMakes)
             <$> batch c in
  NoDup (makeId <$> s)
  ∧ (∀ make, make ∈ remoteMakes → makeId make ∈ makeId <$> s)
  ∧ (∀ d, d ∈ s →
          js_truthy (arrayToMap remoteMakes makeId) (makeId d) = true
          ∧ (makeId d ∈ makeId <$> remoteMakes → stable remote remoteMakes d)
          ∧ (makeId d ∉ makeId <$> remoteMakes → d ∈ c)).
Proof.
  intros Hc s.
  assert (makeId <$> s = makeId <$> batch c) as Hids.
  { unfold s. rewrite <-list_fmap_compose. apply list_fmap_ext.
    intros i d _. simpl. apply fetched_makeId. }
  split_and!.
  - rewrite Hids. by apply batch_NoDup.
  - intros make Hmake. rewrite Hids. by apply batch_has_all.
  - intros d (d0 & -> & Hd0)%list_elem_of_fmap.
    destruct (batch_shelled (arrayToMap c makeId) remoteMakes
                (filter (λ d, js_truthy (arrayToMap remoteMakes makeId) (makeId d)
                              = true) c))
      with (d := d0) as [Hin Hout]; try done.
    + by apply filter_NoDup.
    + intros d [_ Hd]%list_elem_of_filter. by apply arrayToMap_NoDup.
    + intros make Hmake Hhas.
      destruct (arrayToMap c makeId !! makeId make) as [y|] eqn:Hy; [|done].
      apply arrayToMap_lookup_Some in Hy as [Hy Hk]. rewrite <-Hk.
      apply list_elem_of_fmap_2, list_elem_of_filter. split; [|done].
      apply js_truthy_remote. left. rewrite Hk. by apply list_elem_of_fmap_2.
    + apply loadAllMakes_shells.
    + rewrite fetched_makeId.
      destruct (decide (makeId d0 ∈ makeId <$> remoteMakes)) as [Hd0R|Hd0R].
      * split_and!; [apply js_truthy_remote; by left| |done].
        intros _. destruct (Hin Hd0R) as (make & l & Hmake & Hname & Hty).
        unfold stable, fetched.
        rewrite arrayToMap_fmap by apply makeToSave_makeId. rewrite Hmake. simpl.
        destruct (_readVehicleTypesFromAPI remote (makeId d0)) as [vt|e] eqn:Hread.
        -- exists make. simpl. rewrite !makeToSave_makeId, !makeToSave_makeName.
           apply arrayToMap_lookup_Some in Hmake as Hkey. destruct Hkey as [_ Hkey].
           rewrite Hkey, Hmake, Hread. split_and!; [done..|]. by destruct vt.
        -- exists make. rewrite Hmake, Hread. split_and!; [done..|by exists l].
      * pose proof (Hout Hd0R) as [Htruthy Hd0c]%list_elem_of_filter.
        split_and!; [done..|]. intros _. unfold fetched.
        rewrite arrayToMap_fmap by apply makeToSave_makeId.
        by rewrite (proj2 (arrayToMap_lookup_None remoteMakes makeId (makeId d0))).
Qed.

(** A run on such a collection changes nothing. *)
Lemma stable_fixed s :
  NoDup (makeId <$> s) →
  (∀ make, make ∈ remoteMakes → makeId make ∈ makeId <$> s) →
  (∀ d, d ∈ s →
        js_truthy (arrayToMap remoteMakes makeId) (makeId d) = true
        ∧ (makeId d ∈ makeId <$> remoteMakes → stable remote remoteMakes d)) →
  fetched remote (makeToSave (arrayToMap s makeId) <$> remoteMakes) <$> batch s
  = s.
Proof.
  intros Hnd Hall Hstable. unfold batch.
  rewrite filter_all; [|intros d Hd; by apply Hstable].
  rewrite batch_present; [|done..|apply loadAllMakes_shells].
  rewrite <-list_fmap_compose.
  transitivity (id <$> s); [|apply list_fmap_id].
  apply list_fmap_ext. intros i d Hd%list_elem_of_lookup_2. simpl.
  unfold fetched. rewrite reconciled_makeId.
  rewrite arrayToMap_fmap by apply makeToSave_makeId.
  unfold reconciled.
  destruct (arrayToMap remoteMakes makeId !! makeId d) as [make|] eqn:Hmake;
    [|done].
  simpl.
  destruct (Hstable d Hd) as [_ Hst].
  destruct Hst as (make' & Hmake' & Hname & Hty).
  { apply arrayToMap_is_Some. by eexists. }
  rewrite Hmake in Hmake'. injection Hmake' as <-.
  pose proof (arrayToMap_lookup_Some _ _ _ _ Hmake) as [HmakeR Hkey].
  pose proof (makeToSave_shell (arrayToMap s makeId) make
                (loadAllMakes_shells make HmakeR)) as Hdoc.
  rewrite Hkey, (arrayToMap_NoDup s d Hnd Hd) in Hdoc. simpl in Hdoc.
  destruct d as [i0 k n ty]. simpl in *. subst k n.
  destruct (_readVehicleTypesFromAPI remote (makeId make)) as [vt|e].
  - unfold mongo_set, spread_vehicleTypes. simpl.
    rewrite makeToSave_makeId, makeToSave_makeName, Hty.
    by destruct vt.
  - unfold mongo_set. simpl.
    rewrite makeToSave_makeId, makeToSave_makeName, Hdoc.
    destruct Hty as [l ->]. by destruct l.
Qed.

End idempotence.

(** The example scenario of the specification: after the shells are
    persisted D is gone, A keeps its type and C is a shell; after the
    types are loaded, with the request for A failing, B and C have theirs. *)
Lemma example_scenario :
  (startLoading Example.remote no_faults [] [] Example.collection).1
  = [Example.stored 1 "A" [Example.T "T1"]; Example.stored 2 "B" [];
     Example.stored 3 "C" []]
  ∧ snapshot_after (startLoading Example.remote no_faults [] []
                      Example.collection)
    = [Example.stored 1 "A" [Example.T "T1"];
       Example.stored 2 "B" [Example.T "T3"];
       Example.stored 3 "C" [Example.T "T4"; Example.T "T5"]].
Proof. split; by vm_compute. Qed.

(** C7, idempotence: it fails where the claim takes its snapshots, when a
    run returns. [_loadAndSaveVehicleTypes] does not await its last group
    of promises, so the first run of the example returns with the types of
    B and C not yet saved; they are saved afterwards, and a second run,
    started when they are, returns with a collection that differs from the
    one the first run returned with. *)
Theorem second_run_differs_from_first :
  (startLoading Example.remote no_faults [] [] Example.collection).1
  = [Example.stored 1 "A" [Example.T "T1"]; Example.stored 2 "B" [];
     Example.stored 3 "C" []]
  ∧ (startLoading Example.remote no_faults [] []
       (snapshot_after
          (startLoading Example.remote no_faults [] [] Example.collection))).1
    = [Example.stored 1 "A" [Example.T "T1"];
       Example.stored 2 "B" [Example.T "T3"];
       Example.stored 3 "C" [Example.T "T4"; Example.T "T5"]]
  ∧ (startLoading Example.remote no_faults [] []
       (snapshot_after
          (startLoading Example.remote no_faults [] [] Example.collection))).1
    ≠ (startLoading Example.remote no_faults [] [] Example.collection).1.
Proof. split_and!; [by vm_compute..|]. vm_compute. discriminate. Qed.

(** X19. Idempotence once the promises have settled. Against an unchanged
    remote source and a store whose calls succeed, a second run of
    [startLoading] leaves the collection exactly as the first run left it,
    both collections being read once the promises of the run have settled.
    The collection starts with unique keys; the random draws and the
    schedules of the two runs are arbitrary. *)
Theorem startLoading_idempotent remote db random1 schedules1 random2 schedules2
    (c : Collection) :
  faultless db →
  NoDup (makeId <$> c) →
  snapshot_after
    (startLoading remote db random2 schedules2
       (snapshot_after (startLoading remote db random1 schedules1 c)))
  = snapshot_after (startLoading remote db random1 schedules1 c).
Proof.
  intros Hdb Hc.
  destruct (_loadAllMakes remote) as [[remoteMakes|]|e] eqn:Hload.
  - destruct (run_stable remote remoteMakes Hload c Hc)
      as (Hnd & Hall & Hstable).
    rewrite (run_snapshot remote db remoteMakes Hdb Hload random1 schedules1 c Hc).
    rewrite (run_snapshot remote db remoteMakes Hdb Hload random2 schedules2 _ Hnd).
    apply stable_fixed; [done..|]. intros d Hd.
    destruct (Hstable d Hd) as (Htruthy & Hst & _). by split.
  - unfold startLoading. by rewrite Hload.
  - unfold startLoading. by rewrite Hload.
Qed.

Lemma startLoading_idempotent_witness :
  snapshot_after
    (startLoading Example.remote no_faults [2; 0; 1] [[1; 0]]
       (snapshot_after
          (startLoading Example.remote no_faults [] [] Example.collection)))
  = snapshot_after
      (startLoading Example.remote no_faults [] [] Example.collection).
Proof.
  apply (startLoading_idempotent Example.remote no_faults [] [] [2; 0; 1] [[1; 0]]
           Example.collection).
  - by repeat split.
  - apply (bool_decide_unpack _). by vm_compute.
Defined.

(** ** The concurrency cap *)

Lemma peak_from_ge pending (events : list Event) :
  pending ≤ peak_from pending events.
Proof.
  revert pending. induction events as [|[k| |ms] l IH]; intros pending; simpl;
    [lia| | |apply IH].
  - lia.
  - lia.
Qed.

Lemma peak_from_app pending (events1 events2 : list Event) :
  peak_from pending (events1 ++ events2)
  = peak_from pending events1
    `max` peak_from (pending_from pending events1) events2.
Proof.
  revert pending. induction events1 as [|[k| |ms] l IH]; intros pending; simpl.
  - pose proof (peak_from_ge pending events2). lia.
  - rewrite IH. lia.
  - rewrite IH. lia.
  - apply IH.
Qed.

Lemma pending_from_app pending (events1 events2 : list Event) :
  pending_from pending (events1 ++ events2)
  = pending_from (pending_from pending events1) events2.
Proof.
  revert pending. induction events1 as [|[k| |ms] l IH]; intros pending; simpl;
    by rewrite ?IH.
Qed.


Lemma iteration_counted remote db (make : VehicleMake) (st : Loop) :
  counted st → counted (iteration remote db make st).
Proof.
  unfold counted, peak_in_flight, iteration, CONCURRENT_REQUESTS.
  intros (Hpending & Hle & Hpeak).
  case_bool_decide as Hlen; simpl;
    rewrite ?peak_from_app, ?pending_from_app, ?started_app, ?length_app in *;
    rewrite ?Hpending; simpl in *.
  - split_and!; [done|lia|]. left. lia.
  - split_and!; [lia|lia|]. destruct Hpeak as [Hpeak|[Hpeak Hstarted]].
    + left. lia.
    + right. lia.
Qed.

Lemma for_of_counted remote db (queue : list VehicleMake) (st : Loop) :
  (0 ≤ i st)%Z → counted st → counted (for_of remote db queue st).
Proof.
  intros Hi. rewrite for_of_foldl by done. clear Hi. revert st.
  induction queue as [|make queue IH]; intros st Hst; simpl; [done|].
  apply IH. by apply iteration_counted.
Qed.

(** X10. Six promises are pending at once as soon as there are six makes,
    and never more than six, whatever the remote source answers, the store
    does and the schedules are. *)
Lemma peak_in_flight_bound remote db random schedules
    (allMakes : list VehicleMake) (c : Collection) :
  peak_in_flight
    (recorded (_loadAndSaveVehicleTypes remote db random schedules allMakes c))
  ≤ S CONCURRENT_REQUESTS
  ∧ (CONCURRENT_REQUESTS < length allMakes →
     peak_in_flight
       (recorded (_loadAndSaveVehicleTypes remote db random schedules allMakes c))
     = S CONCURRENT_REQUESTS).
Proof.
  pose proof (loadAndSave_started remote db random schedules allMakes c) as Hstarted.
  unfold _loadAndSaveVehicleTypes in *. simpl in *.
  set (st0 := {| shared := _; promises := []; i := 0%Z;
                 schedules_left := schedules; events := [] |}) in *.
  destruct (for_of_counted remote db (shuffle random allMakes) st0)
    as (Hpending & Hle & Hpeak);
    [done
    |unfold counted, CONCURRENT_REQUESTS; simpl; split_and!; [done|lia|by right]
    |].
  apply (f_equal length) in Hstarted.
  assert (length (shuffle random allMakes) = length allMakes) as Hshuffled.
  { apply Permutation_length, shuffle_loop_Permutation. }
  rewrite length_fmap, Hshuffled in Hstarted.
  unfold CONCURRENT_REQUESTS in *. split.
  - destruct Hpeak as [->|[-> _]]; lia.
  - intros Hlen. destruct Hpeak as [->|[_ Hall]]; [done|]. lia.
Qed.

(** The promises of the last group are not awaited: with three makes the
    loader returns while its three promises wait for their responses, and
    the collection changes only afterwards. *)
Lemma loadAndSave_returns_before_settling :
  in_flight (_loadAndSaveVehicleTypes Example.remote no_faults [] []
               Example.remoteMakes Example.collection)
  = [AwaitingTypes (Example.shell "B"); AwaitingTypes (Example.shell "C");
     AwaitingTypes (Example.shell "A")]
  ∧ store (on_return (_loadAndSaveVehicleTypes Example.remote no_faults [] []
                        Example.remoteMakes Example.collection))
    = Example.collection
  ∧ store (settled (_loadAndSaveVehicleTypes Example.remote no_faults [] []
                      Example.remoteMakes Example.collection))
    ≠ Example.collection.
Proof. split_and!; [by vm_compute..|]. vm_compute. discriminate. Qed.

(** * Further properties of the code *)

(** ** helpers.js *)

Section helpers_more.
Context {A : Type}.
Implicit Types (array : list A) (key : A → string).

Lemma arrayToMap_lookup_last array key k :
  arrayToMap array key !! k = last (filter (λ x, key x = k) array).
Proof.
  induction array as [|x array IH] using rev_ind; [done|].
  rewrite arrayToMap_snoc, filter_app.
  destruct (decide (key x = k)) as [Hk|Hk].
  - rewrite filter_cons_True, filter_nil by done.
    by rewrite last_snoc, <-Hk, lookup_insert_eq.
  - rewrite filter_cons_False, filter_nil by done.
    by rewrite app_nil_r, lookup_insert_ne.
Qed.

(** X1. [arrayToMap] keeps, for each key, the last item of the array that
    has it: as an own property when the key is not ["__proto__"], and
    there is no own property for a key that no item has; as the prototype
    of the map when the key is ["__proto__"], which is never an own
    property. *)
Theorem arrayToMap_last array key k :
  js_own (arrayToMap array key) !! k
  = (if decide (k = "__proto__") then None
     else last (filter (λ x, key x = k) array))
  ∧ js_proto (arrayToMap array key)
    = last (filter (λ x, key x = "__proto__") array).
Proof.
  unfold js_own, js_proto. split; [|apply arrayToMap_lookup_last].
  case_decide as Hk.
  - subst k. apply lookup_delete_eq.
  - rewrite lookup_delete_ne by done. apply arrayToMap_lookup_last.
Qed.

Lemma mapToArray_key array key x :
  x ∈ mapToArray (arrayToMap array key) →
  arrayToMap array key !! key x = Some x ∧ key x ≠ "__proto__".
Proof.
  unfold mapToArray, Object_values, js_own.
  intros ([k y] & -> & Hky)%list_elem_of_fmap. simpl.
  apply elem_of_map_to_list, lookup_delete_Some in Hky as [Hne Hky].
  by destruct (arrayToMap_lookup_Some _ _ _ _ Hky) as [_ ->].
Qed.

Lemma mapToArray_keys_NoDup array key :
  NoDup (key <$> mapToArray (arrayToMap array key)).
Proof.
  unfold mapToArray, Object_values, js_own.
  assert (key <$> (map_to_list (delete "__proto__" (arrayToMap array key))).*2
          = (map_to_list (delete "__proto__" (arrayToMap array key))).*1) as ->.
  { rewrite <-list_fmap_compose. apply list_fmap_ext. intros i [k y] Hky. simpl.
    apply list_elem_of_lookup_2, elem_of_map_to_list in Hky.
    apply lookup_delete_Some in Hky as [_ Hky].
    by destruct (arrayToMap_lookup_Some _ _ _ _ Hky) as [_ ->]. }
  apply NoDup_fst_map_to_list.
Qed.

Lemma mapToArray_keys array key :
  key <$> mapToArray (arrayToMap array key)
  ≡ₚ remove_dups (filter (λ k, k ≠ "__proto__") (key <$> array)).
Proof.
  apply NoDup_Permutation;
    [apply mapToArray_keys_NoDup|apply NoDup_remove_dups|].
  intros k. rewrite elem_of_remove_dups, list_elem_of_filter.
  rewrite <-(arrayToMap_is_Some array key k). split.
  - intros (x & -> & Hx)%list_elem_of_fmap.
    destruct (mapToArray_key _ _ _ Hx) as [Hkey Hne]. split; [done|by eexists].
  - intros [Hne [x Hx]].
    destruct (arrayToMap_lookup_Some _ _ _ _ Hx) as [_ <-].
    apply list_elem_of_fmap_2. by apply (mapToArray_elem _ (key x)).
Qed.

(** X2. [mapToArray] after [arrayToMap] holds one item for each key of the
    array other than ["__proto__"]; when the keys of the array are
    distinct it is the array again without the item keyed ["__proto__"],
    up to the order. *)
Theorem mapToArray_arrayToMap array key :
  key <$> mapToArray (arrayToMap array key)
  ≡ₚ remove_dups (filter (λ k, k ≠ "__proto__") (key <$> array))
  ∧ (NoDup (key <$> array) →
     mapToArray (arrayToMap array key)
     ≡ₚ filter (λ x, key x ≠ "__proto__") array).
Proof.
  split; [apply mapToArray_keys|].
  induction array as [|x array IH] using rev_ind; intros Hnd.
  - unfold arrayToMap, mapToArray, Object_values, js_own. simpl.
    by rewrite delete_empty, map_to_list_empty.
  - rewrite fmap_app in Hnd. apply NoDup_app in Hnd as (Hnd & Hx & _).
    rewrite arrayToMap_snoc, filter_app.
    unfold mapToArray, Object_values, js_own in *.
    destruct (decide (key x = "__proto__")) as [Hk|Hk].
    + rewrite filter_cons_False, filter_nil, app_nil_r by (by intros ?).
      rewrite Hk, delete_insert_eq. by apply IH.
    + rewrite filter_cons_True, filter_nil by done.
      rewrite delete_insert_ne by done.
      rewrite map_to_list_insert; cycle 1.
      { rewrite lookup_delete_ne by done.
        apply arrayToMap_lookup_None. intros Hin. apply (Hx _ Hin).
        by apply list_elem_of_singleton. }
      rewrite fmap_cons. simpl. rewrite IH by done.
      by rewrite Permutation_app_comm.
Qed.

End helpers_more.

Lemma mapToArray_arrayToMap_witness :
  mapToArray (arrayToMap Example.remoteMakes makeId)
  ≡ₚ filter (λ x, makeId x ≠ "__proto__") Example.remoteMakes.
Proof.
  apply (proj2 (mapToArray_arrayToMap Example.remoteMakes makeId)).
  apply (bool_decide_unpack _). by vm_compute.
Defined.

Section shuffle_more.
Context {A : Type}.
Implicit Types (array pre suf target : list A).

Lemma swap_app i j pre suf :
  i < length pre → j < length pre →
  swap i j (pre ++ suf) = swap i j pre ++ suf.
Proof.
  intros Hi Hj. unfold swap. rewrite !lookup_app_l by done.
  destruct (pre !! j) as [a|] eqn:Ha; [|done].
  destruct (pre !! i) as [b|] eqn:Hb; [|done].
  rewrite !insert_app_l; [done|by rewrite length_insert|done].
Qed.

(** Swapping the last position with the position of [x] puts [x] last. *)
Lemma swap_last n j pre x :
  length pre = S n → pre !! j = Some x →
  ∃ pre', swap n j pre = pre' ++ [x] ∧ length pre' = n.
Proof.
  intros Hlen Hj.
  pose proof (swap_length n j pre) as Hlen'.
  destruct (swap n j pre) as [|y l] eqn:Hswap using rev_ind.
  { simpl in Hlen'. lia. }
  clear IHl. rewrite length_app in Hlen'. simpl in Hlen'.
  assert (length l = n) as Hl by lia.
  exists l. split; [|done]. f_equal. f_equal.
  assert (swap n j pre !! n = Some x) as Hn.
  { unfold swap. rewrite Hj.
    destruct (pre !! n) as [b|] eqn:Hb; cycle 1.
    { apply lookup_ge_None in Hb. lia. }
    destruct (decide (j = n)) as [->|Hne].
    - rewrite list_lookup_insert_eq by (rewrite length_insert; lia). congruence.
    - rewrite list_lookup_insert_ne by done.
      by rewrite list_lookup_insert_eq by lia. }
  rewrite Hswap, <-Hl, list_lookup_middle in Hn by done. congruence.
Qed.

Lemma shuffle_loop_S random n array :
  shuffle_loop random (S n) array
  = shuffle_loop (tl random) n (swap n (hd 0 random `mod` S n) array).
Proof. done. Qed.

Lemma shuffle_loop_reaches n pre suf target :
  length pre = n → target ≡ₚ pre →
  ∃ random, shuffle_loop random n (pre ++ suf) = target ++ suf.
Proof.
  revert pre suf target. induction n as [|n IH]; intros pre suf target Hlen Hperm.
  - destruct pre; [|done]. apply Permutation_nil_r in Hperm as ->. by exists [].
  - destruct target as [|x target _] using rev_ind.
    { apply Permutation_length in Hperm. simpl in Hperm. lia. }
    assert (x ∈ pre) as [j Hj]%list_elem_of_lookup_1.
    { rewrite <-Hperm. apply elem_of_app. right. by apply list_elem_of_singleton. }
    pose proof (lookup_lt_Some _ _ _ Hj) as Hlt.
    destruct (swap_last n j pre x Hlen Hj) as (pre' & Hswap & Hlen').
    destruct (IH pre' ([x] ++ suf) target Hlen') as [random Hrandom].
    { apply (inj (.++ [x])). rewrite <-Hswap, Hperm. by rewrite swap_Permutation. }
    exists (j :: random). rewrite shuffle_loop_S.
    cbn [hd tl]. rewrite Nat.mod_small by lia.
    rewrite swap_app by lia. rewrite Hswap, <-!app_assoc. exact Hrandom.
Qed.

(** X3. [shuffle] can return every ordering of its input: for each
    permutation of the array there are draws of [Math.random] that produce
    it. *)
Theorem shuffle_reaches_every_order array target :
  target ≡ₚ array → ∃ random, shuffle random array = target.
Proof.
  intros Hperm. unfold shuffle.
  destruct (shuffle_loop_reaches (length array) array [] target eq_refl Hperm)
    as [random Hrandom].
  exists random. by rewrite !app_nil_r in Hrandom.
Qed.

End shuffle_more.

Lemma shuffle_reaches_every_order_witness :
  ∃ random, shuffle random ["A"; "B"; "C"] = ["C"; "A"; "B"].
Proof.
  apply (shuffle_reaches_every_order ["A"; "B"; "C"] ["C"; "A"; "B"]).
  apply (bool_decide_unpack _). by vm_compute.
Defined.

(** ** The store facade *)

Section facade_more.
Implicit Types (c : Collection) (d document make : VehicleMake) (k : string).

Lemma driver_deleteOne_absent k c :
  k ∉ makeId <$> c → driver_deleteOne k c = c.
Proof.
  induction c as [|d c IH]; [done|].
  rewrite fmap_cons, not_elem_of_cons. intros [Hd Hc]. simpl.
  rewrite decide_False by done. by rewrite IH.
Qed.

(** X4. [deleteOne] removes the first document that has the key and no
    other, also when several have it; it answers [true] exactly when the
    key was there; a call that fails, or a key that is absent, leaves the
    collection as it was. *)
Theorem deleteOne_first_match k c :
  deleteOne false k c = (c, false)
  ∧ ((deleteOne true k c).2 = true ↔ k ∈ makeId <$> c)
  ∧ (k ∉ makeId <$> c → (deleteOne true k c).1 = c)
  ∧ (∀ pre d post,
       c = pre ++ d :: post → makeId d = k → k ∉ makeId <$> pre →
       (deleteOne true k c).1 = pre ++ post).
Proof.
  unfold deleteOne. simpl. split_and!.
  - done.
  - apply bool_decide_eq_true.
  - apply driver_deleteOne_absent.
  - intros pre d post -> <- Hpre. by apply driver_deleteOne_middle.
Qed.

Lemma deleteOne_first_match_witness :
  (deleteOne true "B" (Example.collection ++ [Example.stored 4 "B" []])).1
  = [Example.stored 1 "A" [Example.T "T1"]]
    ++ [Example.stored 3 "D" [Example.T "T2"]; Example.stored 4 "B" []].
Proof.
  apply (proj2 (proj2 (proj2
           (deleteOne_first_match "B"
              (Example.collection ++ [Example.stored 4 "B" []]))))
           [Example.stored 1 "A" [Example.T "T1"]] (Example.stored 2 "B" [])).
  - reflexivity.
  - reflexivity.
  - apply (bool_decide_unpack _). by vm_compute.
Defined.

Lemma update_first_middle k document pre d post :
  makeId d = k → k ∉ makeId <$> pre →
  update_first k document (pre ++ d :: post)
  = Some (pre ++ mongo_set document d :: post).
Proof.
  intros Hd. induction pre as [|x pre IH]; simpl.
  - intros _. by rewrite decide_True.
  - rewrite not_elem_of_cons. intros [Hx Hpre].
    rewrite decide_False by done. by rewrite IH.
Qed.

Lemma mongo_set_twice document d :
  mongo_set document (mongo_set document d) = mongo_set document d.
Proof. unfold mongo_set. simpl. by destruct (vehicleTypes document). Qed.

Lemma upsert_own_twice c document :
  upsert_own (upsert_own c document) document = upsert_own c document.
Proof.
  unfold upsert_own, driver_updateOne_upsert.
  destruct (update_first (makeId document) document c) as [c'|] eqn:Hu.
  - apply update_first_split in Hu as (pre & x & post & -> & Hx & Hpre & ->).
    rewrite update_first_middle by done. by rewrite mongo_set_twice.
  - apply update_first_None in Hu.
    rewrite (update_first_middle _ _ c _ []) by done.
    unfold mongo_set, upserted. simpl. by destruct (vehicleTypes document).
Qed.

Lemma upsert_own_frame c document :
  filter (λ d, makeId d ≠ makeId document) (upsert_own c document)
  = filter (λ d, makeId d ≠ makeId document) c.
Proof.
  unfold upsert_own, driver_updateOne_upsert.
  destruct (update_first (makeId document) document c) as [c'|] eqn:Hu.
  - apply update_first_split in Hu as (pre & x & post & -> & Hx & Hpre & ->).
    rewrite !filter_app. f_equal.
    rewrite !filter_cons_False; [done|by intros []|by intros []].
  - rewrite filter_app, filter_cons_False, filter_nil by (by intros []).
    by rewrite app_nil_r.
Qed.

Lemma upsert_own_length c document :
  length (upsert_own c document)
  = if decide (makeId document ∈ makeId <$> c) then length c else S (length c).
Proof.
  rewrite <-!(length_fmap makeId). unfold upsert_own. rewrite upsert_ids.
  case_decide; [done|]. rewrite length_app. simpl. lia.
Qed.

(** X5. What [_saveVehicleTypes] has saved is read back: after a save
    that goes through, [getAllMakes] returns the make as it was given
    (an object without [_id] that has its [vehicleTypes]), and with unique
    keys it returns no other record with that [makeId]. *)
Theorem saveVehicleTypes_read_back db make c :
  upsert_ok db (makeId make) = true →
  _id make = None →
  vehicleTypes make ≠ Missing →
  make ∈ getAllMakes true (_saveVehicleTypes db make c).1
  ∧ (NoDup (makeId <$> c) →
     ∀ r, r ∈ getAllMakes true (_saveVehicleTypes db make c).1 →
          makeId r = makeId make → r = make).
Proof.
  intros Hok Hid Hty.
  unfold _saveVehicleTypes, insertOrUpdate, getAllMakes, find. rewrite Hok. simpl.
  fold (upsert_own c make).
  assert (∀ x, delete_id (mongo_set make x) = make) as Hset.
  { intros x. destruct make as [i k n ty]. simpl in *. subst i.
    unfold delete_id, mongo_set. simpl. by destruct ty. }
  assert (delete_id (upserted make c) = make) as Hnew.
  { destruct make as [i k n ty]. simpl in *. by subst i. }
  split.
  - unfold upsert_own, driver_updateOne_upsert.
    destruct (update_first (makeId make) make c) as [c'|] eqn:Hu.
    + apply update_first_split in Hu as (pre & x & post & -> & Hx & Hpre & ->).
      rewrite <-(Hset x) at 1. apply list_elem_of_fmap_2, elem_of_app. right.
      apply elem_of_cons. by left.
    + rewrite <-Hnew at 1. apply list_elem_of_fmap_2, elem_of_app. right.
      by apply list_elem_of_singleton.
  - intros Hnd r (d & -> & Hd)%list_elem_of_fmap Hk. simpl in Hk.
    apply upsert_own_inv in Hd as [[_ Hne]|[(x & _ & _ & ->)|[_ ->]]]; done.
Qed.

Lemma saveVehicleTypes_read_back_witness :
  {| _id := None; makeId := "B"; makeName := "B";
     vehicleTypes := Arr [Example.T "T3"] |}
  ∈ getAllMakes true
      (_saveVehicleTypes no_faults
         {| _id := None; makeId := "B"; makeName := "B";
            vehicleTypes := Arr [Example.T "T3"] |} Example.collection).1.
Proof.
  apply (saveVehicleTypes_read_back no_faults
           {| _id := None; makeId := "B"; makeName := "B";
              vehicleTypes := Arr [Example.T "T3"] |} Example.collection);
    [reflexivity|reflexivity|discriminate].
Defined.

(** X6. [_saveVehicleTypes] is idempotent and touches one key: saving the
    same make again changes nothing; the documents with another [makeId]
    stay as they were and in their order; and the collection grows by one
    document exactly when the save goes through and the key was absent. *)
Theorem saveVehicleTypes_idempotent db make c :
  (_saveVehicleTypes db make (_saveVehicleTypes db make c).1).1
  = (_saveVehicleTypes db make c).1
  ∧ filter (λ d, makeId d ≠ makeId make) (_saveVehicleTypes db make c).1
    = filter (λ d, makeId d ≠ makeId make) c
  ∧ length (_saveVehicleTypes db make c).1
    = if decide (upsert_ok db (makeId make) = true
                 ∧ makeId make ∉ makeId <$> c)
      then S (length c) else length c.
Proof.
  unfold _saveVehicleTypes, insertOrUpdate.
  destruct (upsert_ok db (makeId make)); cbn [fst].
  - fold (upsert_own c make). fold (upsert_own (upsert_own c make) make).
    split_and!; [apply upsert_own_twice|apply upsert_own_frame|].
    rewrite upsert_own_length.
    destruct (decide (makeId make ∈ makeId <$> c)).
    + rewrite decide_False; [done|]. by intros [_ ?].
    + by rewrite decide_True.
  - split_and!; [done..|]. rewrite decide_False; [done|]. by intros [? _].
Qed.

End facade_more.

(** ** _saveMakes *)

Section saveMakes_more.
Implicit Types (c : Collection) (d make : VehicleMake) (k : string).
Implicit Types (remoteMakes : list VehicleMake).

Lemma foldl_upsert_keeps_id d (documents : list VehicleMake) c :
  NoDup (makeId <$> c) →
  (∃ d', d' ∈ c ∧ _id d' = _id d ∧ makeId d' = makeId d) →
  ∃ d', d' ∈ foldl upsert_own c documents ∧ _id d' = _id d
        ∧ makeId d' = makeId d.
Proof.
  revert c. induction documents as [|x l IH]; intros c Hnd Hd; simpl; [done|].
  apply IH; [by apply upsert_NoDup|].
  destruct Hd as (d' & Hin & Hid & Hk).
  destruct (decide (makeId x = makeId d)) as [Hx|Hx].
  - exists (mongo_set x d'). split_and!; [|done..].
    apply upsert_present; [done..|congruence].
  - exists d'. split; [|done]. apply upsert_other; [done|congruence].
Qed.

(** X7. [_saveMakes] updates in place: a stored make that the remote list
    still has is neither deleted nor inserted anew, it keeps its [_id],
    whichever store calls fail. *)
Theorem saveMakes_keeps_id db remoteMakes c d :
  NoDup (makeId <$> c) →
  d ∈ c →
  makeId d ∈ makeId <$> remoteMakes →
  ∃ d', d' ∈ (_saveMakes db (Some remoteMakes) c).1
        ∧ _id d' = _id d ∧ makeId d' = makeId d.
Proof.
  intros Hnd Hd Hk. rewrite saveMakes_store. apply foldl_upsert_keeps_id.
  - eapply sublist_NoDup; [done|]. apply fmap_sublist, deleteOld_sublist.
  - exists d. split; [|done]. apply deleteOld_keeps; [done|].
    apply js_truthy_remote. by left.
Qed.

Lemma saveMakes_keeps_id_witness :
  ∃ d', d' ∈ (_saveMakes Example.bulk_fails (Some Example.remoteMakes)
                Example.collection).1
        ∧ _id d' = Some 2 ∧ makeId d' = "B".
Proof.
  apply (saveMakes_keeps_id Example.bulk_fails Example.remoteMakes
           Example.collection (Example.stored 2 "B" [])).
  - apply (bool_decide_unpack _). by vm_compute.
  - apply (bool_decide_unpack _). by vm_compute.
  - apply (bool_decide_unpack _). by vm_compute.
Defined.

(** X8. The keys [_saveMakes] leaves when no store call fails: those of
    the remote list, every remote make having a document, the new ones
    included; and of the keys stored before, besides the remote ones, only
    those under which the map of the remote makes inherits something, for
    which no [deleteOne] is issued. *)
Theorem saveMakes_mirrors_keys db remoteMakes c k :
  find_ok db = true →
  (∀ k, delete_ok db k = true) →
  bulk_fail_at db = None →
  k ∈ makeId <$> (_saveMakes db (Some remoteMakes) c).1
  ↔ k ∈ makeId <$> remoteMakes
    ∨ (k ∈ makeId <$> c
       ∧ js_inherited (arrayToMap remoteMakes makeId) k = true).
Proof.
  intros Hfind Hdel Hbulk.
  rewrite saveMakes_store, Hfind, Hbulk. simpl.
  rewrite deleteOld_filter by done. split.
  - intros [Hin|Hin]%foldl_upsert_ids_inv.
    + apply list_elem_of_fmap in Hin as (d & -> & Hd).
      apply list_elem_of_filter in Hd as [[Hk|Hk]%js_truthy_remote Hd];
        [by left|right]. split; [by apply list_elem_of_fmap_2|done].
    + left. by rewrite makesToSave_ids in Hin.
  - intros [(make & -> & Hmake)%list_elem_of_fmap|[Hk Hinh]].
    + rewrite <-(makeToSave_makeId (arrayToMap c makeId)).
      by apply foldl_upsert_ids_own, list_elem_of_fmap_2.
    + apply foldl_upsert_ids_incl.
      apply list_elem_of_fmap in Hk as (d & -> & Hd).
      apply list_elem_of_fmap_2, list_elem_of_filter. split; [|done].
      apply js_truthy_remote. by right.
Qed.

Lemma saveMakes_mirrors_keys_witness :
  "constructor" ∈ makeId <$> (_saveMakes no_faults (Some Example.remoteMakes)
                                (Example.stored 4 "constructor" []
                                 :: Example.collection)).1
  ↔ "constructor" ∈ makeId <$> Example.remoteMakes
    ∨ ("constructor" ∈ makeId <$> Example.stored 4 "constructor" []
                                   :: Example.collection
       ∧ js_inherited (arrayToMap Example.remoteMakes makeId) "constructor" = true).
Proof.
  apply (saveMakes_mirrors_keys no_faults Example.remoteMakes
           (Example.stored 4 "constructor" [] :: Example.collection)
           "constructor"); [reflexivity|intros k; reflexivity|reflexivity].
Defined.

(** A document whose key the snapshot does not have is written with an
    empty array of types by a batch of shells. *)
Lemma batch_new_shell (M : gmap string VehicleMake) remoteMakes c k :
  NoDup (makeId <$> c) →
  M !! k = None →
  k ∉ makeId <$> c →
  (∀ make, make ∈ remoteMakes → vehicleTypes make = Arr []) →
  ∀ d, d ∈ foldl upsert_own c (makeToSave M <$> remoteMakes) →
       makeId d = k → vehicleTypes d = Arr [].
Proof.
  intros Hnd HM Hk. induction remoteMakes as [|m R IH] using rev_ind;
    intros Hshell d Hd Hdk.
  - simpl in Hd. exfalso. apply Hk. rewrite <-Hdk. by apply list_elem_of_fmap_2.
  - rewrite fmap_app, foldl_app in Hd. simpl in Hd.
    assert (vehicleTypes (makeToSave M m) = if has_types (M !! makeId m)
                                             then Missing else Arr []) as Hdoc.
    { apply makeToSave_shell, Hshell, elem_of_app. right.
      by apply list_elem_of_singleton. }
    specialize (IH (λ make Hin, Hshell make (proj2 (elem_of_app _ _ _)
                                                (or_introl Hin)))).
    apply upsert_own_inv in Hd as [[Hd Hne]|[(x & Hx & Hxk & ->)|[Hnew ->]]];
      [| | |by apply foldl_upsert_NoDup].
    + by apply IH.
    + simpl in *. rewrite makeToSave_makeId in Hdk. rewrite Hdoc, Hdk, HM. done.
    + simpl in *. rewrite makeToSave_makeId in Hdk. rewrite Hdoc, Hdk, HM. done.
Qed.

(** X9. The documents [_saveMakes] leaves, when no store call fails, the
    snapshot has unique keys and the remote records are shells: a document
    under a remote key carries the name of the last remote record with
    that key and an array of types; a document under another key is one
    of the collection, as it was; a make that was not stored before is a
    shell, its array empty. *)
Theorem saveMakes_shells db remoteMakes c d :
  find_ok db = true →
  (∀ k, delete_ok db k = true) →
  bulk_fail_at db = None →
  NoDup (makeId <$> c) →
  (∀ make, make ∈ remoteMakes → vehicleTypes make = Arr []) →
  d ∈ (_saveMakes db (Some remoteMakes) c).1 →
  (makeId d ∈ makeId <$> remoteMakes → shelled remoteMakes d)
  ∧ (makeId d ∉ makeId <$> remoteMakes → d ∈ c)
  ∧ (makeId d ∉ makeId <$> c → vehicleTypes d = Arr []).
Proof.
  intros Hfind Hdel Hbulk Hnd Hshell.
  rewrite saveMakes_store, Hfind, Hbulk. simpl.
  rewrite deleteOld_filter by done. intros Hd.
  set (kept := filter (λ d, js_truthy (arrayToMap remoteMakes makeId) (makeId d)
                            = true) c) in *.
  assert (NoDup (makeId <$> kept)) as Hnd' by by apply filter_NoDup.
  destruct (batch_shelled (arrayToMap c makeId) remoteMakes kept)
    with (d := d) as [Hin Hout]; try done.
  { intros x [_ Hx]%list_elem_of_filter. by apply arrayToMap_NoDup. }
  { intros make Hmake Hhas.
    destruct (arrayToMap c makeId !! makeId make) as [y|] eqn:Hy; [|done].
    apply arrayToMap_lookup_Some in Hy as [Hy Hk]. rewrite <-Hk.
    apply list_elem_of_fmap_2, list_elem_of_filter. split; [|done].
    apply js_truthy_remote. left. rewrite Hk. by apply list_elem_of_fmap_2. }
  split_and!; [done| |].
  - intros Hn. by pose proof (Hout Hn) as [_ ?]%list_elem_of_filter.
  - intros Hnew.
    apply (batch_new_shell (arrayToMap c makeId) remoteMakes kept (makeId d));
      try done.
    + by apply arrayToMap_lookup_None.
    + intros (x & Hx & [_ Hxc]%list_elem_of_filter)%list_elem_of_fmap.
      apply Hnew. rewrite Hx. by apply list_elem_of_fmap_2.
Qed.

Lemma saveMakes_shells_witness :
  ("C" ∈ makeId <$> Example.remoteMakes →
   shelled Example.remoteMakes (Example.stored 3 "C" []))
  ∧ ("C" ∉ makeId <$> Example.remoteMakes → Example.stored 3 "C" [] ∈ Example.collection)
  ∧ ("C" ∉ makeId <$> Example.collection →
     vehicleTypes (Example.stored 3 "C" []) = Arr []).
Proof.
  apply (saveMakes_shells no_faults Example.remoteMakes Example.collection
           (Example.stored 3 "C" []));
    [reflexivity|intros k; reflexivity|reflexivity| | |].
  - apply (bool_decide_unpack _). by vm_compute.
  - intros make Hmake. vm_compute in Hmake.
    repeat (apply elem_of_cons in Hmake as [->|Hmake]; [done|]).
    by apply elem_of_nil in Hmake.
  - apply (bool_decide_unpack _). by vm_compute.
Defined.

End saveMakes_more.

(** ** The type loader *)

Lemma peak_in_flight_bound_witness :
  peak_in_flight
    (recorded (_loadAndSaveVehicleTypes Example.remote no_faults [3; 1] [[4; 0; 4]]
                 (Example.six ++ Example.remoteMakes) Example.collection))
  = S CONCURRENT_REQUESTS.
Proof.
  apply (proj2 (peak_in_flight_bound Example.remote no_faults [3; 1] [[4; 0; 4]]
                  (Example.six ++ Example.remoteMakes) Example.collection)).
  unfold CONCURRENT_REQUESTS. simpl. lia.
Defined.

Lemma awaited_app (events1 events2 : list Event) :
  awaited (events1 ++ events2) = awaited events1 + awaited events2.
Proof.
  induction events1 as [|[k| |ms] l IH]; simpl; [done|done| |done]. by rewrite IH.
Qed.

Lemma iteration_groups remote db (make : VehicleMake) (st : Loop) :
  length (promises st) = length (started (events st)) `mod` 6
  ∧ awaited (events st) = length (started (events st)) `div` 6 →
  length (promises (iteration remote db make st))
  = length (started (events (iteration remote db make st))) `mod` 6
  ∧ awaited (events (iteration remote db make st))
    = length (started (events (iteration remote db make st))) `div` 6.
Proof.
  intros [Hmod Hdiv]. rewrite iteration_started, length_app.
  cbn [length]. unfold iteration, CONCURRENT_REQUESTS.
  rewrite length_app. cbn [length].
  pose proof (Nat.div_mod_eq (length (started (events st))) 6) as Heq.
  pose proof (Nat.mod_upper_bound (length (started (events st))) 6) as Hlt.
  pose proof (Nat.div_mod_eq (length (started (events st)) + 1) 6) as Heq'.
  pose proof (Nat.mod_upper_bound (length (started (events st)) + 1) 6) as Hlt'.
  case_bool_decide as Hlen; cbn [promises events];
    rewrite ?awaited_app, ?length_app; cbn [awaited length]; lia.
Qed.

Lemma for_of_groups remote db (queue : list VehicleMake) (st : Loop) :
  (0 ≤ i st)%Z →
  length (promises st) = length (started (events st)) `mod` 6
  ∧ awaited (events st) = length (started (events st)) `div` 6 →
  length (promises (for_of remote db queue st))
  = length (started (events (for_of remote db queue st))) `mod` 6
  ∧ awaited (events (for_of remote db queue st))
    = length (started (events (for_of remote db queue st))) `div` 6.
Proof.
  intros Hi. rewrite for_of_foldl by done. clear Hi. revert st.
  induction queue as [|make queue IH]; intros st Hst; [done|].
  cbn [foldl]. apply IH. by apply iteration_groups.
Qed.

(** X11. The loader awaits its promises in groups of six and does not
    await the rest: for [n] makes it awaits [n / 6] groups, and [n mod 6]
    promises are still pending when it returns. *)
Theorem loadAndSave_leaves_pending remote db random schedules
    (allMakes : list VehicleMake) (c : Collection) :
  length (in_flight
            (_loadAndSaveVehicleTypes remote db random schedules allMakes c))
  = length allMakes `mod` S CONCURRENT_REQUESTS
  ∧ awaited (recorded
               (_loadAndSaveVehicleTypes remote db random schedules allMakes c))
    = length allMakes `div` S CONCURRENT_REQUESTS.
Proof.
  pose proof (loadAndSave_started remote db random schedules allMakes c) as Hstarted.
  apply (f_equal length) in Hstarted.
  assert (length (shuffle random allMakes) = length allMakes) as Hshuffled.
  { apply Permutation_length, shuffle_loop_Permutation. }
  rewrite length_fmap, Hshuffled in Hstarted.
  unfold _loadAndSaveVehicleTypes, CONCURRENT_REQUESTS in *.
  cbn [in_flight recorded] in *. rewrite <-Hstarted.
  by apply for_of_groups.
Qed.

Lemma for_of_no_await remote db (queue : list VehicleMake) (st : Loop) :
  (0 ≤ i st)%Z →
  length (promises st) + length queue ≤ CONCURRENT_REQUESTS →
  shared (for_of remote db queue st) = shared st
  ∧ promises (for_of remote db queue st)
    = promises st ++ (AwaitingTypes <$> queue).
Proof.
  intros Hi. rewrite for_of_foldl by done. clear Hi. revert st.
  induction queue as [|make queue IH]; intros st Hlen.
  - simpl. by rewrite app_nil_r.
  - cbn [foldl]. simpl in Hlen.
    assert (iteration remote db make st
            = {| shared := shared st;
                 promises := promises st ++ [AwaitingTypes make];
                 i := i st; schedules_left := schedules_left st;
                 events := events st ++ [Started (makeId make)] |}) as ->.
    { unfold iteration. rewrite bool_decide_eq_false_2; [done|].
      rewrite length_app. simpl. lia. }
    destruct (IH (incr {| shared := shared st;
                          promises := promises st ++ [AwaitingTypes make];
                          i := i st; schedules_left := schedules_left st;
                          events := events st ++ [Started (makeId make)] |}))
      as [-> ->].
    + simpl. rewrite length_app. simpl. lia.
    + simpl. by rewrite <-app_assoc.
Qed.

(** X12. With at most [CONCURRENT_REQUESTS] makes nothing is awaited: the
    loader returns while every request is pending, the collection and
    [makesMap] are as they were, and the array it returns holds the makes
    it was given, none with fetched types. *)
Theorem loadAndSave_small_returns_input remote db random schedules
    (allMakes : list VehicleMake) (c : Collection) :
  length allMakes ≤ CONCURRENT_REQUESTS →
  on_return (_loadAndSaveVehicleTypes remote db random schedules allMakes c)
  = {| makesMap := arrayToMap allMakes makeId; store := c |}
  ∧ in_flight (_loadAndSaveVehicleTypes remote db random schedules allMakes c)
    = AwaitingTypes <$> shuffle random allMakes
  ∧ returned (_loadAndSaveVehicleTypes remote db random schedules allMakes c)
    = mapToArray (arrayToMap allMakes makeId).
Proof.
  intros Hlen. unfold _loadAndSaveVehicleTypes. cbn [on_return in_flight returned].
  set (st0 := {| shared := _; promises := []; i := 0%Z;
                 schedules_left := schedules; events := [] |}).
  destruct (for_of_no_await remote db (shuffle random allMakes) st0) as [-> ->];
    [done| |done].
  assert (length (shuffle random allMakes) = length allMakes) as ->.
  { apply Permutation_length, shuffle_loop_Permutation. }
  done.
Qed.

Lemma loadAndSave_small_returns_input_witness :
  on_return (_loadAndSaveVehicleTypes Example.remote no_faults [1] []
               Example.remoteMakes Example.collection)
  = {| makesMap := arrayToMap Example.remoteMakes makeId;
       store := Example.collection |}
  ∧ in_flight (_loadAndSaveVehicleTypes Example.remote no_faults [1] []
                 Example.remoteMakes Example.collection)
    = AwaitingTypes <$> shuffle [1] Example.remoteMakes
  ∧ returned (_loadAndSaveVehicleTypes Example.remote no_faults [1] []
                Example.remoteMakes Example.collection)
    = mapToArray (arrayToMap Example.remoteMakes makeId).
Proof.
  apply (loadAndSave_small_returns_input Example.remote no_faults [1] []
           Example.remoteMakes Example.collection).
  unfold CONCURRENT_REQUESTS. simpl. lia.
Defined.

(** X13. The collection the loader leaves does not depend on the order of
    processing nor on the interleaving of its promises: when every save
    goes through and every make has its document, each document ends as
    what the loader makes of it, for all random draws and schedules. *)
Theorem loadAndSave_order_independent remote db (allMakes : list VehicleMake)
    (c : Collection) random1 schedules1 random2 schedules2 :
  (∀ k, upsert_ok db k = true) →
  NoDup (makeId <$> c) →
  (∀ make, make ∈ allMakes → makeId make ∈ makeId <$> c) →
  store (settled (_loadAndSaveVehicleTypes remote db random1 schedules1 allMakes c))
  = fetched remote allMakes <$> c
  ∧ store (settled
             (_loadAndSaveVehicleTypes remote db random2 schedules2 allMakes c))
    = store (settled
               (_loadAndSaveVehicleTypes remote db random1 schedules1 allMakes c)).
Proof.
  intros Hok Hnd Hall.
  by rewrite !(loadAndSave_store remote db allMakes c Hok Hnd Hall).
Qed.

Lemma loadAndSave_order_independent_witness :
  store (settled (_loadAndSaveVehicleTypes Example.remote no_faults [] []
                    [Example.shell "A"; Example.shell "B"] Example.collection))
  = fetched Example.remote [Example.shell "A"; Example.shell "B"]
    <$> Example.collection
  ∧ store (settled (_loadAndSaveVehicleTypes Example.remote no_faults [1; 0] [[1; 0; 0]]
                      [Example.shell "A"; Example.shell "B"] Example.collection))
    = store (settled (_loadAndSaveVehicleTypes Example.remote no_faults [] []
                        [Example.shell "A"; Example.shell "B"] Example.collection)).
Proof.
  apply (loadAndSave_order_independent Example.remote no_faults
           [Example.shell "A"; Example.shell "B"] Example.collection
           [] [] [1; 0] [[1; 0; 0]]).
  - intros k. reflexivity.
  - apply (bool_decide_unpack _). by vm_compute.
  - intros make Hmake. vm_compute in Hmake.
    repeat (apply elem_of_cons in Hmake as [->|Hmake];
            [apply (bool_decide_unpack _); by vm_compute|]).
    by apply elem_of_nil in Hmake.
Defined.

(** X14. The array the loader returns has one entry for each key of the
    makes it was given other than ["__proto__"], and its entries are those
    of [mapToArray] on the makes it was given in everything but their
    [vehicleTypes]: whatever the remote source and the store do, the loop
    loses, adds and renames no entry. *)
Theorem loadAndSave_returns_given_makes remote db random schedules
    (allMakes : list VehicleMake) (c : Collection) :
  delete_vehicleTypes
    <$> returned (_loadAndSaveVehicleTypes remote db random schedules allMakes c)
  ≡ₚ delete_vehicleTypes <$> mapToArray (arrayToMap allMakes makeId)
  ∧ makeId
      <$> returned (_loadAndSaveVehicleTypes remote db random schedules allMakes c)
    ≡ₚ remove_dups (filter (λ k, k ≠ "__proto__") (makeId <$> allMakes)).
Proof.
  assert (delete_vehicleTypes
            <$> returned (_loadAndSaveVehicleTypes remote db random schedules
                            allMakes c)
          ≡ₚ delete_vehicleTypes <$> mapToArray (arrayToMap allMakes makeId))
    as Hsame.
  { destruct (loadAndSave_invariant_base remote db allMakes
                (λ _ _ s, ∀ k, delete_vehicleTypes <$> makesMap s !! k
                               = delete_vehicleTypes
                                   <$> arrayToMap allMakes makeId !! k))
      with (random := random) (schedules := schedules) (c := c) as [Hret _];
      try done.
    { intros queue ps s n p HB _ Hp.
      by destruct (Base_resume remote db allMakes queue ps s n p HB Hp) as [? _]. }
    unfold _loadAndSaveVehicleTypes in *. cbn [returned on_return] in *.
    set (m := makesMap _) in *.
    assert (delete_vehicleTypes <$> m
            = delete_vehicleTypes <$> arrayToMap allMakes makeId) as Hmaps.
    { apply map_eq. intros k. by rewrite !lookup_fmap. }
    unfold mapToArray, Object_values, js_own.
    transitivity ((map_to_list (delete "__proto__" (delete_vehicleTypes <$> m))).*2).
    - rewrite <-fmap_delete, map_to_list_fmap, <-!list_fmap_compose. done.
    - rewrite Hmaps, <-fmap_delete, map_to_list_fmap, <-!list_fmap_compose. done. }
  split; [done|].
  rewrite <-(mapToArray_keys allMakes makeId).
  apply (fmap_Permutation makeId) in Hsame.
  by rewrite <-!list_fmap_compose in Hsame.
Qed.

Section loader_keys.
Context (remote : Remote) (db : DbFaults) (allMakes : list VehicleMake).
Context (random : list nat) (schedules : list (list nat)) (c : Collection).
Local Notation "'cycle'" :=
  (_loadAndSaveVehicleTypes remote db random schedules allMakes c).

Lemma loadAndSave_grown :
  grown allMakes c (on_return cycle) ∧ grown allMakes c (settled cycle).
Proof.
  apply (loadAndSave_invariant_base remote db allMakes
           (λ _ _ s, grown allMakes c s));
    try done.
  - intros queue ps s n p HB (new & Hids & Hnew) Hp.
    destruct (resume_cases remote db allMakes queue ps s n p HB Hp)
      as [[-> ->]|[(m & e & -> & Hm & ->)
         |[(m & x & vt' & -> & Hx & Hm & ->)
          |(um & x & vt' & -> & Hx & Hm & Hum & ->)]]]; simpl;
      try by exists new.
    unfold grown, _saveVehicleTypes, insertOrUpdate. simpl.
    destruct (upsert_ok db (makeId um)); simpl; [|by exists new].
    rewrite upsert_ids. case_decide; [by exists new|].
    exists (new ++ [makeId um]). rewrite Hids, <-app_assoc. split; [done|].
    intros k [Hk| ->%list_elem_of_singleton]%elem_of_app; [by apply Hnew|].
    apply arrayToMap_is_Some. by exists x.
  - exists []. split; [by rewrite app_nil_r|]. by intros k ?%elem_of_nil.
Qed.

Lemma grown_same_ids (s : Shared) :
  NoDup (makeId <$> store s) →
  (∀ make, make ∈ allMakes → makeId make ∈ makeId <$> c) →
  grown allMakes c s → makeId <$> store s = makeId <$> c.
Proof.
  intros Hnd Hall (new & Hids & Hnew). rewrite Hids in *.
  destruct new as [|k new]; [by rewrite app_nil_r|].
  apply NoDup_app in Hnd as (_ & Hdisj & _).
  assert (k ∈ makeId <$> allMakes) as Hin by (apply Hnew; by left).
  apply list_elem_of_fmap in Hin as (make & Hk & Hmake).
  exfalso. apply (Hdisj k); [|by left]. rewrite Hk. by apply Hall.
Qed.

End loader_keys.

(** X15. The type loader never deletes or re-keys a document and adds
    none of its own invention: whatever the remote source answers, the
    store does and the schedules are, the keys of the collection, at return
    and once settled, are the keys it had, in their order, followed by keys
    of the given makes. *)
Theorem loadAndSave_keeps_documents remote db random schedules
    (allMakes : list VehicleMake) (c : Collection) :
  (∃ new,
     makeId <$> store
       (on_return (_loadAndSaveVehicleTypes remote db random schedules allMakes c))
     = (makeId <$> c) ++ new
     ∧ ∀ k, k ∈ new → k ∈ makeId <$> allMakes)
  ∧ (∃ new,
       makeId <$> store
         (settled (_loadAndSaveVehicleTypes remote db random schedules allMakes c))
       = (makeId <$> c) ++ new
       ∧ ∀ k, k ∈ new → k ∈ makeId <$> allMakes).
Proof. apply loadAndSave_grown. Qed.

(** ** A whole run *)

Lemma remove_dups_length (l : list string) :
  length (remove_dups l) ≤ length l.
Proof.
  induction l as [|k l IH]; simpl; [done|]. case_decide; simpl; lia.
Qed.

Lemma remove_dups_length_NoDup (l : list string) :
  length (remove_dups l) = length l ↔ NoDup l.
Proof.
  induction l as [|k l IH]; simpl.
  - split; [constructor|done].
  - pose proof (remove_dups_length l). rewrite NoDup_cons, <-IH.
    case_decide; simpl; split; try lia; try by intros [? _].
    intros [= Hn]. by split.
Qed.

Section whole_run.
Context (remote : Remote) (db : DbFaults) (remoteMakes : list VehicleMake).
Context (random : list nat) (schedules : list (list nat)) (c : Collection).
Hypothesis db_faultless : faultless db.
Hypothesis fetched_makes : _loadAllMakes remote = Return (Some remoteMakes).
Local Notation "'cycle'" :=
  (_loadAndSaveVehicleTypes remote db random schedules
     (makeToSave (arrayToMap c makeId) <$> remoteMakes) (batch remoteMakes c)).

Lemma startLoading_cycle :
  startLoading remote db random schedules c
  = (store (on_return cycle), Return cycle).
Proof.
  destruct db_faultless as (Hfind & Hdel & Hbulk & Hups).
  unfold startLoading. rewrite fetched_makes.
  pose proof (saveMakes_store db remoteMakes c) as Hstore.
  unfold _saveMakes in *. simpl in *. rewrite Hfind, Hbulk in *. simpl in *.
  rewrite deleteOld_filter in * by done. by rewrite Hstore.
Qed.

Lemma batch_keys k :
  k ∈ makeId <$> batch remoteMakes c
  ↔ k ∈ makeId <$> remoteMakes
    ∨ (k ∈ makeId <$> c
       ∧ js_inherited (arrayToMap remoteMakes makeId) k = true).
Proof.
  split.
  - intros [Hin|Hin]%foldl_upsert_ids_inv.
    + apply list_elem_of_fmap in Hin as (d & -> & Hd).
      apply list_elem_of_filter in Hd as [[Hk|Hk]%js_truthy_remote Hd];
        [by left|right]. split; [by apply list_elem_of_fmap_2|done].
    + left. by rewrite makesToSave_ids in Hin.
  - intros [(make & -> & Hmake)%list_elem_of_fmap|[Hk Hinh]].
    + by apply batch_has_all.
    + apply foldl_upsert_ids_incl.
      apply list_elem_of_fmap in Hk as (d & -> & Hd).
      apply list_elem_of_fmap_2, list_elem_of_filter. split; [|done].
      apply js_truthy_remote. by right.
Qed.

Lemma batch_length :
  NoDup (makeId <$> c) →
  length (batch remoteMakes c)
  = length (remove_dups (makeId <$> remoteMakes))
    + length (passed_over remoteMakes c).
Proof.
  intros Hc.
  rewrite <-(length_fmap makeId (batch remoteMakes c)).
  rewrite <-(length_fmap makeId (passed_over remoteMakes c)), <-length_app.
  apply Permutation_length, NoDup_Permutation; [by apply batch_NoDup| |].
  - apply NoDup_app. split_and!; [apply NoDup_remove_dups| |by apply filter_NoDup].
    intros k Hk (d & -> & Hd)%list_elem_of_fmap.
    rewrite elem_of_remove_dups in Hk.
    by apply list_elem_of_filter in Hd as [[Hn _] _].
  - intros k. rewrite batch_keys, elem_of_app, elem_of_remove_dups. split.
    + intros [Hk|[Hk Hinh]]; [by left|].
      destruct (decide (k ∈ makeId <$> remoteMakes)) as [HR|HR]; [by left|right].
      apply list_elem_of_fmap in Hk as (d & -> & Hd).
      by apply list_elem_of_fmap_2, list_elem_of_filter.
    + intros [Hk|(d & -> & Hd)%list_elem_of_fmap]; [by left|right].
      apply list_elem_of_filter in Hd as [[_ Hinh] Hd].
      split; [by apply list_elem_of_fmap_2|done].
Qed.

Lemma run_keys :
  NoDup (makeId <$> c) →
  makeId <$> store (on_return cycle) = makeId <$> batch remoteMakes c
  ∧ makeId <$> store (settled cycle) = makeId <$> batch remoteMakes c.
Proof.
  intros Hc.
  pose proof (batch_NoDup remoteMakes c Hc) as Hnd.
  destruct (loadAndSave_NoDup remote db random schedules
              (makeToSave (arrayToMap c makeId) <$> remoteMakes) _ Hnd)
    as [Hnd1 Hnd2].
  destruct (loadAndSave_grown remote db
              (makeToSave (arrayToMap c makeId) <$> remoteMakes)
              random schedules (batch remoteMakes c)) as [Hg1 Hg2].
  assert (∀ make, make ∈ makeToSave (arrayToMap c makeId) <$> remoteMakes →
                  makeId make ∈ makeId <$> batch remoteMakes c) as Hall.
  { intros make (m & -> & Hm)%list_elem_of_fmap.
    rewrite makeToSave_makeId. by apply batch_has_all. }
  split; by eapply grown_same_ids.
Qed.

End whole_run.

(** X16. What a run leaves. When the makes request succeeds and no store
    call fails, then from a collection with distinct keys, whatever the
    random draws and schedules are, the collection once the run has
    settled has distinct keys: the keys of the remote list, and of the
    keys stored before only those under which the map of the remote makes
    inherits something. Each document under a remote key is named after
    the last remote record with that key and holds the types the remote
    source answers for it now, or an array when that request fails; a
    document under another key is one of the collection, as it was. *)
Theorem startLoading_postcondition remote db random schedules
    (remoteMakes : list VehicleMake) (c : Collection) :
  faultless db →
  _loadAllMakes remote = Return (Some remoteMakes) →
  NoDup (makeId <$> c) →
  NoDup (makeId <$> snapshot_after (startLoading remote db random schedules c))
  ∧ (∀ k, k ∈ makeId <$> snapshot_after (startLoading remote db random schedules c)
          ↔ k ∈ makeId <$> remoteMakes
            ∨ (k ∈ makeId <$> c
               ∧ js_inherited (arrayToMap remoteMakes makeId) k = true))
  ∧ (∀ d, d ∈ snapshot_after (startLoading remote db random schedules c) →
          (makeId d ∈ makeId <$> remoteMakes → stable remote remoteMakes d)
          ∧ (makeId d ∉ makeId <$> remoteMakes → d ∈ c)).
Proof.
  intros Hdb Hload Hc.
  rewrite (run_snapshot remote db remoteMakes Hdb Hload random schedules c Hc).
  destruct (run_stable remote remoteMakes Hload c Hc) as (Hnd & Hall & Hst).
  split_and!; [done| |].
  - intros k. rewrite <-(batch_keys remoteMakes c k).
    rewrite <-list_fmap_compose.
    assert (makeId ∘ fetched remote (makeToSave (arrayToMap c makeId) <$> remoteMakes)
            <$> batch remoteMakes c = makeId <$> batch remoteMakes c) as ->; [|done].
    apply list_fmap_ext. intros i d _. simpl. apply fetched_makeId.
  - intros d Hd. destruct (Hst d Hd) as (_ & Hin & Hout). by split.
Qed.

Lemma startLoading_postcondition_witness :
  NoDup (makeId <$> snapshot_after
           (startLoading Example.remote no_faults [] [] Example.collection))
  ∧ (∀ k, k ∈ makeId <$> snapshot_after
                (startLoading Example.remote no_faults [] [] Example.collection)
          ↔ k ∈ makeId <$> Example.remoteMakes
            ∨ (k ∈ makeId <$> Example.collection
               ∧ js_inherited (arrayToMap Example.remoteMakes makeId) k = true))
  ∧ (∀ d, d ∈ snapshot_after
                (startLoading Example.remote no_faults [] [] Example.collection) →
          (makeId d ∈ makeId <$> Example.remoteMakes →
           stable Example.remote Example.remoteMakes d)
          ∧ (makeId d ∉ makeId <$> Example.remoteMakes → d ∈ Example.collection)).
Proof.
  apply (startLoading_postcondition Example.remote no_faults [] []
           Example.remoteMakes Example.collection).
  - by split_and!.
  - reflexivity.
  - apply (bool_decide_unpack _). by vm_compute.
Defined.

(** X17. The self-check after a run. When the makes request succeeded and
    no store call failed, the check that follows a run passes exactly when
    the [Count] it reads is the number of documents the run leaves:
    the number of distinct keys of the remote list, plus the number of
    stale documents that were passed over; and that whether the promises
    of the run are still pending or have settled. So a key repeated in
    the remote list makes it fail on a [Count] equal to the length of the
    list, no stale document having been passed over. *)
Theorem self_check_after_run remote db random schedules
    (remoteMakes : list VehicleMake) (c : Collection) (count : option Z) :
  faultless db →
  _loadAllMakes remote = Return (Some remoteMakes) →
  NoDup (makeId <$> c) →
  (testTheMakesDataTransform (Parsed count) true
     (startLoading remote db random schedules c).1 = Return TestPassed
   ↔ count = Some (Z.of_nat (length (remove_dups (makeId <$> remoteMakes))
                             + length (passed_over remoteMakes c))))
  ∧ (testTheMakesDataTransform (Parsed count) true
       (snapshot_after (startLoading remote db random schedules c))
     = Return TestPassed
     ↔ count = Some (Z.of_nat (length (remove_dups (makeId <$> remoteMakes))
                               + length (passed_over remoteMakes c))))
  ∧ (passed_over remoteMakes c = [] →
     count = Some (Z.of_nat (length remoteMakes)) →
     testTheMakesDataTransform (Parsed count) true
       (startLoading remote db random schedules c).1 = Return TestPassed
     ↔ NoDup (makeId <$> remoteMakes)).
Proof.
  intros Hdb Hload Hc.
  rewrite (startLoading_cycle remote db remoteMakes random schedules c Hdb Hload).
  destruct (run_keys remote db remoteMakes random schedules c Hc) as [Hk1 Hk2].
  pose proof (batch_length remoteMakes c Hc) as Hlen.
  apply (f_equal length) in Hk1, Hk2. rewrite !length_fmap in Hk1, Hk2.
  assert (∀ s : Collection,
            length s = length (batch remoteMakes c) →
            testTheMakesDataTransform (Parsed count) true s = Return TestPassed
            ↔ count = Some (Z.of_nat
                              (length (remove_dups (makeId <$> remoteMakes))
                               + length (passed_over remoteMakes c))))
    as Htest.
  { intros s Hs. unfold testTheMakesDataTransform, getAllMakes, find. simpl.
    rewrite length_fmap, Hs, Hlen. by case_decide. }
  cbn [fst snapshot_after]. split_and!; [by apply Htest..|].
  intros Hnone ->. rewrite (Htest _ Hk1), Hnone. simpl. rewrite Nat.add_0_r. split.
  - intros [= Hn%Nat2Z.inj]. apply remove_dups_length_NoDup.
    by rewrite length_fmap.
  - intros Hnd%remove_dups_length_NoDup. by rewrite Hnd, length_fmap.
Qed.

Lemma self_check_after_run_witness :
  (testTheMakesDataTransform (Parsed (Some 3%Z)) true
     (startLoading Example.remote no_faults [] [] Example.collection).1
   = Return TestPassed
   ↔ Some 3%Z
     = Some (Z.of_nat (length (remove_dups (makeId <$> Example.remoteMakes))
                       + length (passed_over Example.remoteMakes Example.collection))))
  ∧ (testTheMakesDataTransform (Parsed (Some 3%Z)) true
       (snapshot_after (startLoading Example.remote no_faults [] [] Example.collection))
     = Return TestPassed
     ↔ Some 3%Z
       = Some (Z.of_nat (length (remove_dups (makeId <$> Example.remoteMakes))
                         + length (passed_over Example.remoteMakes
                                     Example.collection))))
  ∧ (passed_over Example.remoteMakes Example.collection = [] →
     Some 3%Z = Some (Z.of_nat (length Example.remoteMakes)) →
     testTheMakesDataTransform (Parsed (Some 3%Z)) true
       (startLoading Example.remote no_faults [] [] Example.collection).1
     = Return TestPassed
     ↔ NoDup (makeId <$> Example.remoteMakes)).
Proof.
  apply (self_check_after_run Example.remote no_faults [] []
           Example.remoteMakes Example.collection (Some 3%Z)).
  - by split_and!.
  - reflexivity.
  - apply (bool_decide_unpack _). by vm_compute.
Defined.

(** ** [_saveMakes] when the collection cannot be read *)

Lemma foldl_upsert_frame (documents : list VehicleMake) (c : Collection)
    (d : VehicleMake) :
  NoDup (makeId <$> c) →
  makeId d ∉ makeId <$> documents →
  d ∈ foldl upsert_own c documents ↔ d ∈ c.
Proof.
  revert c. induction documents as [|x documents IH]; intros c Hc Hd; [done|].
  rewrite fmap_cons, not_elem_of_cons in Hd. destruct Hd as [Hx Hd].
  cbn [foldl]. rewrite IH; [|by apply upsert_NoDup|done]. split.
  - intros Hin. destruct (upsert_own_inv c x d Hc Hin)
      as [[? _]|[(x0 & _ & _ & ->)|[_ ->]]]; done.
  - intros Hin. by apply upsert_other.
Qed.

Lemma foldl_upsert_overwrites (v : Field (list VehicleType))
    (documents : list VehicleMake) (c : Collection) (d : VehicleMake) :
  v ≠ Missing →
  NoDup (makeId <$> c) →
  (∀ x, x ∈ documents → vehicleTypes x = v) →
  d ∈ foldl upsert_own c documents →
  makeId d ∈ makeId <$> documents →
  vehicleTypes d = v.
Proof.
  intros Hv. revert c.
  induction documents as [|x documents IH]; intros c Hc Hdocs Hin Hd.
  { by apply elem_of_nil in Hd. }
  cbn [foldl] in Hin.
  destruct (decide (makeId d ∈ makeId <$> documents)) as [Hlater|Hlater].
  - apply (IH (upsert_own c x)); [by apply upsert_NoDup| |done..].
    intros y Hy. apply Hdocs. by right.
  - rewrite fmap_cons in Hd. apply elem_of_cons in Hd as [Hd|Hd]; [|done].
    apply foldl_upsert_frame in Hin; [|by apply upsert_NoDup|done].
    assert (vehicleTypes x = v) as Hx by (apply Hdocs; by left).
    destruct (upsert_own_inv c x d Hc Hin)
      as [[_ Hne]|[(x0 & _ & _ & ->)|[_ ->]]]; [done| |done].
    simpl. rewrite Hx. by destruct v.
Qed.

(** X18. When the read of the collection fails, [find] answers with an
    empty list and [_saveMakes] works from it: no document is deleted,
    the stale ones included, and the batch being written in full, the
    types of every document with a remote key are reset to the empty array
    of the remote shells, whatever was stored. *)
Theorem saveMakes_blind_read db (remoteMakes : list VehicleMake) (c : Collection) :
  find_ok db = false →
  bulk_fail_at db = None →
  NoDup (makeId <$> c) →
  (∀ make, make ∈ remoteMakes → vehicleTypes make = Arr []) →
  (∀ d, d ∈ c → makeId d ∉ makeId <$> remoteMakes →
        d ∈ (_saveMakes db (Some remoteMakes) c).1)
  ∧ (∀ k, k ∈ makeId <$> c → k ∈ makeId <$> (_saveMakes db (Some remoteMakes) c).1)
  ∧ (∀ d, d ∈ (_saveMakes db (Some remoteMakes) c).1 →
          makeId d ∈ makeId <$> remoteMakes → vehicleTypes d = Arr []).
Proof.
  intros Hfind Hbulk Hc Hshell.
  rewrite saveMakes_store, Hfind, Hbulk. simpl.
  split_and!.
  - intros d Hd Hk. apply foldl_upsert_frame; [done| |done].
    by rewrite makesToSave_ids.
  - intros k Hk. by apply foldl_upsert_ids_incl.
  - intros d Hd Hk.
    apply (foldl_upsert_overwrites (Arr [])
             (makeToSave (arrayToMap [] makeId) <$> remoteMakes) c);
      [done..| |done|].
    + intros x (make & -> & Hmake)%list_elem_of_fmap.
      unfold makeToSave, arrayToMap. simpl. rewrite lookup_empty. simpl.
      by apply Hshell.
    + by rewrite makesToSave_ids.
Qed.

Lemma saveMakes_blind_read_witness :
  (∀ d, d ∈ Example.collection → makeId d ∉ makeId <$> Example.remoteMakes →
        d ∈ (_saveMakes {| find_ok := false; delete_ok := λ _, true;
                           bulk_fail_at := None; upsert_ok := λ _, true |}
               (Some Example.remoteMakes) Example.collection).1)
  ∧ (∀ k, k ∈ makeId <$> Example.collection →
          k ∈ makeId <$> (_saveMakes {| find_ok := false; delete_ok := λ _, true;
                                        bulk_fail_at := None; upsert_ok := λ _, true |}
                            (Some Example.remoteMakes) Example.collection).1)
  ∧ (∀ d, d ∈ (_saveMakes {| find_ok := false; delete_ok := λ _, true;
                             bulk_fail_at := None; upsert_ok := λ _, true |}
                 (Some Example.remoteMakes) Example.collection).1 →
          makeId d ∈ makeId <$> Example.remoteMakes → vehicleTypes d = Arr []).
Proof.
  apply (saveMakes_blind_read
           {| find_ok := false; delete_ok := λ _, true;
              bulk_fail_at := None; upsert_ok := λ _, true |}
           Example.remoteMakes Example.collection).
  - reflexivity.
  - reflexivity.
  - apply (bool_decide_unpack _). by vm_compute.
  - intros make Hmake. vm_compute in Hmake.
    repeat (apply elem_of_cons in Hmake as [->|Hmake]; [reflexivity|]).
    by apply elem_of_nil in Hmake.
Defined.

(** ** What [_saveMakes] passes over *)

(** X20. A stored document whose [makeId] names a member of
    [Object.prototype] is never deleted by [_saveMakes]: whatever the
    remote list holds and whichever store calls fail, the collection
    still has a document with its [_id] under that key, and the document
    itself, unchanged, when the remote list does not have the key. *)
Theorem saveMakes_keeps_inherited_names db (remoteMakes : list VehicleMake)
    (c : Collection) (d : VehicleMake) :
  NoDup (makeId <$> c) →
  d ∈ c →
  makeId d ∈ Object_prototype →
  (∃ d', d' ∈ (_saveMakes db (Some remoteMakes) c).1
         ∧ _id d' = _id d ∧ makeId d' = makeId d)
  ∧ (makeId d ∉ makeId <$> remoteMakes →
     d ∈ (_saveMakes db (Some remoteMakes) c).1).
Proof.
  intros Hnd Hd Hk. rewrite saveMakes_store.
  assert (js_truthy (arrayToMap remoteMakes makeId) (makeId d) = true) as Htruthy.
  { unfold js_truthy, js_inherited.
    rewrite (bool_decide_eq_true_2 (makeId d ∈ Object_prototype)) by done.
    by rewrite orb_true_r. }
  assert (NoDup (makeId <$> deleteOld db (arrayToMap remoteMakes makeId)
                              (find (find_ok db) c) c)) as Hnd'.
  { eapply sublist_NoDup; [done|]. apply fmap_sublist, deleteOld_sublist. }
  split.
  - apply foldl_upsert_keeps_id; [done|].
    exists d. split; [|done]. by apply deleteOld_keeps.
  - intros HR. apply foldl_upsert_frame; [done| |by apply deleteOld_keeps].
    intros (x & Hx & Hin%written_subseteq)%list_elem_of_fmap.
    apply HR. rewrite Hx.
    rewrite <-(makesToSave_ids (arrayToMap (find (find_ok db) c) makeId)).
    by apply list_elem_of_fmap_2.
Qed.

Lemma saveMakes_keeps_inherited_names_witness :
  (∃ d', d' ∈ (_saveMakes no_faults (Some Example.remoteMakes)
                 (Example.stored 4 "constructor" [] :: Example.collection)).1
         ∧ _id d' = Some 4 ∧ makeId d' = "constructor")
  ∧ ("constructor" ∉ makeId <$> Example.remoteMakes →
     Example.stored 4 "constructor" []
     ∈ (_saveMakes no_faults (Some Example.remoteMakes)
          (Example.stored 4 "constructor" [] :: Example.collection)).1).
Proof.
  apply (saveMakes_keeps_inherited_names no_faults Example.remoteMakes
           (Example.stored 4 "constructor" [] :: Example.collection)
           (Example.stored 4 "constructor" []));
    apply (bool_decide_unpack _); by vm_compute.
Defined.
